(** * log-viewer: the watch / diff / broadcast pipeline

    A shallow embedding of [watcher.go], [websocket.go] and the two
    handlers of package [main] ([onSocketMessage], [onFileChange]),
    together with the properties of the line diff, of the watcher's event
    handling and of the broadcast hub.

    Conventions.
    - Go strings are byte strings: [string] (a list of 8-bit [ascii]).
    - Slice indices and loop counters are [nat]; they are bounded by the
      length of a slice, so the 64-bit [int] of the source never wraps.
      The [int] fields that reach the wire ([OldLine], [NewLine]) and the
      cells of the LCS table are [Z].
    - What the Go runtime and the operating system provide (the file
      system, [encoding/json]) enters as a parameter. *)

From Stdlib Require Import Ascii String ZArith Lia.
From stdpp Require Import gmap strings list fin_maps sorting.

Local Open Scope Z_scope.
Local Open Scope string_scope.
Local Open Scope list_scope.

(** ** Lines *)

Definition newline : ascii := Ascii.ascii_of_nat 10.

(** [strings.Split(s, "\n")]: one fragment per separator plus one; the
    empty string gives the single fragment [""]. *)
Fixpoint Split (s : string) : list string :=
  match s with
  | EmptyString => [EmptyString]
  | String c rest =>
      if Ascii.eqb c newline then EmptyString :: Split rest
      else match Split rest with
           | [] => [String c EmptyString]
           | l :: ls => String c l :: ls
           end
  end.

(** [lines[k]] for an index the source keeps in range. *)
Definition line_at (lines : list string) (k : nat) : string :=
  default EmptyString (lines !! k).

(** ** LineChange *)

Record LineChange := mkLineChange {
  Type_   : string;   (* "added" or "removed" *)
  OldLine : Z;
  NewLine : Z;
  OldText : string;
  NewText : string
}.

Global Instance LineChange_eq_dec : EqDecision LineChange.
Proof. solve_decision. Defined.

(** The two composite literals of [compareLines]; the fields a literal
    leaves out hold Go's zero values. *)
Definition added_change (j : nat) (text : string) : LineChange :=
  {| Type_ := "added"; OldLine := 0; NewLine := Z.of_nat j;
     OldText := ""; NewText := text |}.

Definition removed_change (i : nat) (text : string) : LineChange :=
  {| Type_ := "removed"; OldLine := Z.of_nat i; NewLine := 0;
     OldText := text; NewText := "" |}.

(** ** The LCS table *)

(** [func max(a, b int) int] *)
Definition max (a b : Z) : Z := if Z.gtb a b then a else b.

Abbreviation Table := (list (list Z)).

(** [dp := make([][]int, m+1)], every row [make([]int, n+1)]. *)
Definition make_table (m n : nat) : Table :=
  replicate (S m) (replicate (S n) 0).

(** [dp[i][j]] *)
Definition dp_at (dp : Table) (i j : nat) : Z :=
  default 0 (dp !! i ≫= (.!! j)).

(** [dp[i][j] = v] *)
Definition dp_set (i j : nat) (v : Z) (dp : Table) : Table :=
  <[i := <[j := v]> (default [] (dp !! i))]> dp.

(** The body of the inner loop. *)
Definition fill_cell (oldLines newLines : list string) (i j : nat)
    (dp : Table) : Table :=
  if decide (line_at oldLines (i - 1) = line_at newLines (j - 1))
  then dp_set i j (dp_at dp (i - 1) (j - 1) + 1) dp
  else dp_set i j (max (dp_at dp (i - 1) j) (dp_at dp i (j - 1))) dp.

(** [for j := 1; j <= n; j++] *)
Definition fill_row (oldLines newLines : list string) (i : nat)
    (dp : Table) : Table :=
  foldl (fun dp j => fill_cell oldLines newLines i j dp) dp
        (seq 1 (length newLines)).

(** [for i := 1; i <= m; i++] *)
Definition fill_table (oldLines newLines : list string) : Table :=
  foldl (fun dp i => fill_row oldLines newLines i dp)
        (make_table (length oldLines) (length newLines))
        (seq 1 (length oldLines)).

(** ** The backward walk *)

(** The loop [for i > 0 || j > 0] with its three [switch] cases, in the
    source's order.  A [switch] without a matching case falls through to
    the next iteration with [i] and [j] unchanged; [fuel] bounds the
    number of iterations and [None] means it ran out. *)
Fixpoint backtrack (fuel : nat) (oldLines newLines : list string)
    (dp : Table) (i j : nat) (changes : list LineChange)
    : option (list LineChange) :=
  if decide (0 < i ∨ 0 < j)%nat then
    match fuel with
    | O => None
    | S fuel' =>
        if decide ((0 < i)%nat ∧ (0 < j)%nat ∧
                   line_at oldLines (i - 1) = line_at newLines (j - 1))
        then backtrack fuel' oldLines newLines dp (i - 1) (j - 1) changes
        else if decide ((0 < j)%nat ∧
                        (i = 0%nat ∨ dp_at dp i (j - 1) >= dp_at dp (i - 1) j))
        then backtrack fuel' oldLines newLines dp i (j - 1)
               (added_change j (line_at newLines (j - 1)) :: changes)
        else if decide ((0 < i)%nat ∧
                        (j = 0%nat ∨ dp_at dp i (j - 1) < dp_at dp (i - 1) j))
        then backtrack fuel' oldLines newLines dp (i - 1) j
               (removed_change i (line_at oldLines (i - 1)) :: changes)
        else backtrack fuel' oldLines newLines dp i j changes
    end
  else Some changes.

(** [compareLines] on the two line slices, with an iteration budget. *)
Definition compare_loop (fuel : nat) (oldLines newLines : list string)
    : option (list LineChange) :=
  backtrack fuel oldLines newLines (fill_table oldLines newLines)
            (length oldLines) (length newLines) [].

(** The walk moves one step towards [(0, 0)] in every iteration (lemma
    [backtrack_walk] below), so [m + n] iterations are enough. *)
Definition diff_lines (oldLines newLines : list string) : list LineChange :=
  default [] (compare_loop (length oldLines + length newLines)
                           oldLines newLines).

(** [func (fw *FileWatcher) compareLines(oldContent, newContent string)] *)
Definition compareLines (oldContent newContent : string) : list LineChange :=
  diff_lines (Split oldContent) (Split newContent).

Definition nl : string := String newline EmptyString.

(** ** The table, as the recurrence describes it

    [lcs i j] is the cell [(i, j)] of the specification's table: [0] on
    the first row and column; below, the diagonal cell plus one where the
    lines [i - 1] and [j - 1] are equal, otherwise the larger of the cell
    above and the cell to the left. *)
Section Recurrence.
Variables oldLines newLines : list string.

Fixpoint lcs_row (x : string) (above : nat -> Z) (j : nat) : Z :=
  match j with
  | O => 0
  | S j' =>
      if decide (x = line_at newLines j') then above j' + 1
      else max (above (S j')) (lcs_row x above j')
  end.

Fixpoint lcs (i : nat) : nat -> Z :=
  match i with
  | O => fun _ => 0
  | S i' => lcs_row (line_at oldLines i') (lcs i')
  end.
End Recurrence.

(** ** Edit scripts

    How a reader of the wire applies a [LineChange] sequence to the old
    lines: the lines named by the [removed] entries are deleted, at their
    [OldLine] positions in the old sequence; then every [added] entry, in
    output order, is inserted so that it stands at position [NewLine]. *)

Definition is_removed (c : LineChange) : bool := bool_decide (Type_ c = "removed").
Definition is_added (c : LineChange) : bool := bool_decide (Type_ c = "added").

(** The [OldLine] of the [removed] entries and the [NewLine] of the
    [added] entries, in output order. *)
Definition removed_lines (cs : list LineChange) : list Z :=
  OldLine <$> filter (fun c => is_removed c = true) cs.
Definition added_lines (cs : list LineChange) : list Z :=
  NewLine <$> filter (fun c => is_added c = true) cs.

(** Drop the lines whose 1-based position, counted from [k], is in [rm]. *)
Fixpoint delete_from (k : nat) (rm : list Z) (lines : list string)
    : list string :=
  match lines with
  | [] => []
  | x :: rest =>
      if decide (Z.of_nat k ∈ rm) then delete_from (S k) rm rest
      else x :: delete_from (S k) rm rest
  end.

Definition delete_removed (cs : list LineChange) (oldLines : list string)
    : list string :=
  delete_from 1 (removed_lines cs) oldLines.

(** Insert [x] so that it becomes the element of index [k]. *)
Definition insert_at (k : nat) (x : string) (lines : list string)
    : list string :=
  take k lines ++ x :: drop k lines.

Definition insert_added (cs : list LineChange) (lines : list string)
    : list string :=
  foldl (fun acc c =>
           if is_added c
           then insert_at (Z.to_nat (NewLine c) - 1) (NewText c) acc
           else acc)
        lines cs.

Definition apply_script (cs : list LineChange) (oldLines : list string)
    : list string :=
  insert_added cs (delete_removed cs oldLines).

(** One [added] entry per line, numbered from [k]; one [removed] entry
    per line, numbered from [k]. *)
Definition adds (k : nat) (lines : list string) : list LineChange :=
  imap (fun p t => added_change (k + p) t) lines.
Definition removes (k : nat) (lines : list string) : list LineChange :=
  imap (fun p t => removed_change (k + p) t) lines.

(** * The watcher *)

(** ** Results and errors *)

(** A Go [error] value, by its text. *)
Definition error := string.

Inductive result (A : Type) : Type :=
| Ok (a : A)
| Err (e : error).
Arguments Ok {A} a.
Arguments Err {A} e.

(** ** Files *)

(** [os.FileInfo]: what [file.Stat()] reports. *)
Record os_FileInfo := mkFileInfo {
  fi_Name  : string;
  fi_Size  : Z;
  fi_IsDir : bool
}.

(** An opened file: the answer of [Stat], the bytes its reads deliver in
    order, and what the read after the last byte returns ([None] is
    [io.EOF], [Some e] an I/O error such as reading a directory). *)
Record File := mkFile {
  stat     : result os_FileInfo;
  data     : string;
  read_end : option error
}.

(** [os.Open] on every path. *)
Definition FS := string -> result File.

(** The error of an oversized file; the two sizes that [fmt.Errorf]
    formats into the text are left out. *)
Definition errTooLarge : error := "文件太大".

(** [maxSize := int64(10 * 1024 * 1024)] *)
Definition maxSize : Z := 10 * 1024 * 1024.

(** [reader.ReadString('\n')] on the unread bytes: the bytes up to and
    including the first newline, and the bytes after it; without a
    newline, all the bytes and no rest (the reader hit the end). *)
Fixpoint ReadString (unread : string) : string * option string :=
  match unread with
  | EmptyString => (EmptyString, None)
  | String c rest =>
      if Ascii.eqb c newline then (String c EmptyString, Some rest)
      else let '(line, r) := ReadString rest in (String c line, r)
  end.

(** The [for] loop of the method [readFileContent]: [Some (Ok s)] when it
    breaks on [io.EOF] with [s] in the buffer, [Some (Err e)] when it
    returns on another error, [None] when [fuel] iterations were not
    enough. *)
Fixpoint read_lines (fuel : nat) (unread : string) (fin : option error)
    (buffer : string) : option (result string) :=
  match fuel with
  | O => None
  | S fuel' =>
      match ReadString unread with
      | (line, Some rest) => read_lines fuel' rest fin (buffer +:+ line)
      | (line, None) =>
          match fin with
          | None => Some (Ok (buffer +:+ line))
          | Some e => Some (Err e)
          end
      end
  end.

(** Every iteration but the last consumes a newline, so one iteration
    more than there are bytes is enough (lemma [read_lines_all]). *)
Definition read_buffered (f : File) : result string :=
  default (Err "") (read_lines (S (String.length (data f))) (data f)
                               (read_end f) "").

(** [func (fw *FileWatcher) readFileContent(filePath string)
      (string, os.FileInfo, error)] *)
Definition FileWatcher_readFileContent (fs : FS) (filePath : string)
    : string * option os_FileInfo * option error :=
  match fs filePath with
  | Err err => ("", None, Some err)
  | Ok file =>
      match stat file with
      | Err err => ("", None, Some err)
      | Ok fileInfo =>
          if Z.gtb (fi_Size fileInfo) maxSize
          then ("", Some fileInfo, Some errTooLarge)
          else match read_buffered file with
               | Err err => ("", None, Some err)
               | Ok content => (content, Some fileInfo, None)
               end
      end
  end.

(** [io.ReadAll(file)] *)
Definition ReadAll (f : File) : result string :=
  match read_end f with
  | None => Ok (data f)
  | Some e => Err e
  end.

(** [func readFileContent(filePath string) (string, os.FileInfo, error)],
    the function of the directory mode. *)
Definition readFileContent (fs : FS) (filePath : string)
    : string * option os_FileInfo * option error :=
  match fs filePath with
  | Err err => ("", None, Some err)
  | Ok file =>
      match stat file with
      | Err err => ("", None, Some err)
      | Ok fileInfo =>
          if Z.gtb (fi_Size fileInfo) maxSize
          then ("", Some fileInfo, Some errTooLarge)
          else match ReadAll file with
               | Err err => ("", Some fileInfo, Some err)
               | Ok content => (content, Some fileInfo, None)
               end
      end
  end.

(** ** Change records *)

(** [LineChanges] is a slice: [None] is the nil slice of a record that
    never set it, [Some cs] the slice [handleFileChange] stores. *)
Record FileChange := mkFileChange {
  Path        : string;
  Op          : string;
  Content     : string;
  PrevContent : string;
  LineChanges : option (list LineChange);
  FileInfo    : option os_FileInfo
}.

(** [fileCache map[string]string]; the notification handle of the struct
    plays no part in the handling of an event. *)
Record FileWatcher := mkFileWatcher {
  fileCache : gmap string string
}.

(** [fw.fileCache[filePath]]: a missing key reads as the zero value. *)
Definition cache_get (fw : FileWatcher) (filePath : string) : string :=
  default "" (fileCache fw !! filePath).

(** ** Notifications *)

(** [fsnotify.Op], a bit mask. *)
Definition Create : Z := 1.
Definition Write  : Z := 2.
Definition Remove : Z := 4.
Definition Rename : Z := 8.
Definition Chmod  : Z := 16.

Record Event := mkEvent {
  Name  : string;
  ev_Op : Z
}.

(** [event.Has(op)]: the bit of [op] is set ([op] is always one of the
    single-bit masks above). *)
Definition Has (e : Event) (op : Z) : bool := Z.eqb (Z.land (ev_Op e) op) op.

Section Watcher.
(** What the callback acts on. *)
Context {St : Type}.
Variable fs : FS.

(** A [func(FileChange)] value: [None] is nil. *)
Definition Callback : Type := option (FileChange -> St -> St).

Definition invoke (callback : Callback) (change : FileChange) (st : St)
    : St :=
  match callback with
  | Some f => f change st
  | None => st
  end.

(** [func (fw *FileWatcher) handleFileChange(filePath, callback)] *)
Definition handleFileChange (fw : FileWatcher) (filePath : string)
    (callback : Callback) (st : St) : FileWatcher * St :=
  match FileWatcher_readFileContent fs filePath with
  | (_, _, Some err) => (fw, st)
  | (newContent, fileInfo, None) =>
      let oldContent := cache_get fw filePath in
      let changes := compareLines oldContent newContent in
      let fw' := {| fileCache := <[filePath := newContent]> (fileCache fw) |} in
      let fileChange :=
        {| Path := filePath; Op := "modified";
           Content := newContent; PrevContent := oldContent;
           LineChanges := Some changes; FileInfo := fileInfo |} in
      (fw', invoke callback fileChange st)
  end.

(** One event of the loop of [WatchFile]. *)
Definition WatchFile_event (fw : FileWatcher) (event : Event)
    (callback : Callback) (st : St) : FileWatcher * St :=
  if Has event Write then handleFileChange fw (Name event) callback st
  else (fw, st).

(** The [switch] of [WatchDirectory]; [None] is its [default]. *)
Definition event_op (event : Event) : option string :=
  if Has event Write then Some "modified"
  else if Has event Create then Some "created"
  else if Has event Remove then Some "removed"
  else if Has event Rename then Some "renamed"
  else None.

(** One event of the loop of [WatchDirectory]. *)
Definition WatchDirectory_event (event : Event) (callback : Callback)
    (st : St) : St :=
  match event_op event with
  | None => st
  | Some op =>
      if bool_decide (op = "removed" \/ op = "renamed")
      then invoke callback
             {| Path := Name event; Op := op; Content := "";
                PrevContent := ""; LineChanges := None; FileInfo := None |}
             st
      else match readFileContent fs (Name event) with
           | (_, _, Some err) => st
           | (content, fileInfo, None) =>
               invoke callback
                 {| Path := Name event; Op := op; Content := content;
                    PrevContent := ""; LineChanges := None;
                    FileInfo := fileInfo |}
                 st
           end
  end.
End Watcher.

(** * The wire *)

(** A JSON document, as [json.Marshal] lays it out: the members of an
    object in the order of the encoding (a struct in the order of its
    fields, a [map[string]interface{}] by sorted key). *)
#[local] Unset Elimination Schemes.
Inductive JSON : Type :=
| JNull
| JString (s : string)
| JNumber (z : Z)
| JArray (items : list JSON)
| JObject (members : list (string * JSON)).
#[local] Set Elimination Schemes.

Definition object_keys (j : JSON) : list string :=
  match j with
  | JObject members => fst <$> members
  | _ => []
  end.

(** [LineChange] on the wire, by its [json] tags. *)
Definition marshal_LineChange (c : LineChange) : JSON :=
  JObject [ ("type", JString (Type_ c));
            ("old_line", JNumber (OldLine c));
            ("new_line", JNumber (NewLine c));
            ("old_text", JString (OldText c));
            ("new_text", JString (NewText c)) ].

Section Wire.
(** How [encoding/json] renders the dynamic value behind a non-nil
    [os.FileInfo]. *)
Variable marshal_FileInfo : os_FileInfo -> JSON.

(** [FileChange] on the wire, by its [json] tags: [Content] and
    [PrevContent] carry the tag ["-"]; a nil slice and a nil interface
    encode as [null]. *)
Definition marshal_FileChange (change : FileChange) : JSON :=
  JObject [ ("path", JString (Path change));
            ("op", JString (Op change));
            ("line_changes",
               match LineChanges change with
               | None => JNull
               | Some cs => JArray (marshal_LineChange <$> cs)
               end);
            ("file_info",
               match FileInfo change with
               | None => JNull
               | Some fi => marshal_FileInfo fi
               end) ].

(** The message [onFileChange] builds. *)
Definition log_message (change : FileChange) : JSON :=
  JObject [ ("data", marshal_FileChange change); ("type", JString "log") ].

(** [func onFileChange(change FileChange)], acting on the messages
    handed to [wsServer.broadcast], oldest first. *)
Definition onFileChange (change : FileChange) (broadcast : list JSON)
    : list JSON :=
  broadcast ++ [log_message change].
End Wire.

(** * Inbound messages *)

(** [SocketMessage], the envelope. *)
Record SocketMessage := mkSocketMessage {
  msg_Type : string;
  msg_Data : JSON
}.

(** How a call ends: it returns, or it takes the process down, through
    [log.Fatalf] (which exits) or through a panic nobody recovers. *)
Inductive Outcome (A : Type) : Type :=
| Returns (a : A)
| Exits
| Panics.
Arguments Returns {A} a.
Arguments Exits {A}.
Arguments Panics {A}.

Section Handler.
(** [json.Unmarshal(message, &msg)] and [os.ReadFile]. *)
Variable json_Unmarshal : string -> result SocketMessage.
Variable os_ReadFile : string -> result string.
(** [var watchPath string] *)
Variable watchPath : string.

(** [func onSocketMessage(message []byte) ([]byte, error)]; the reply
    is the document that [json.Marshal] then renders. *)
Definition onSocketMessage (message : string) : Outcome (result JSON) :=
  match json_Unmarshal message with
  | Err err => Exits
  | Ok msg =>
      if bool_decide (msg_Type msg = "get_info") then
        Returns (Ok (JObject
          [ ("data", JObject [ ("path", JString watchPath);
                               ("type", JString "file") ]);
            ("type", JString "info") ]))
      else if bool_decide (msg_Type msg = "get_file_content") then
        match msg_Data msg with
        | JString path =>
            match os_ReadFile path with
            | Err err => Exits
            | Ok content =>
                Returns (Ok (JObject [ ("data", JString content);
                                       ("type", JString "file_content") ]))
            end
        | _ => Panics
        end
      else if bool_decide (msg_Type msg = "ping") then
        Returns (Ok (JObject [ ("type", JString "pong") ]))
      else Returns (Err ("未知的消息类型: " +:+ msg_Type msg))
  end.
End Handler.

(** What one iteration of the loop of [handleClientRead] does. *)
Inductive ReadStep : Type :=
| Break                       (* the connection is torn down *)
| Continue                    (* the error is logged, the loop goes on *)
| Respond (response : JSON)   (* the response is queued, the loop goes on *)
| ProcessDown.                (* the process is gone, and every connection *)

(** The body of the [for] of [handleClientRead], given what
    [client.conn.ReadMessage()] returned. *)
Definition handleClientRead_step
    (handler : string -> Outcome (result JSON)) (read : result string)
    : ReadStep :=
  match read with
  | Err err => Break
  | Ok message =>
      match handler message with
      | Exits | Panics => ProcessDown
      | Returns (Err err) => Continue
      | Returns (Ok response) => Respond response
      end
  end.

(** * The hub *)

(** A channel of messages: what is queued (oldest first), the capacity
    it was made with, and whether it was closed. *)
Record Chan := mkChan {
  queue    : list JSON;
  capacity : nat;
  closed   : bool
}.

(** [make(chan []byte, n)] *)
Definition make_chan (n : nat) : Chan :=
  {| queue := []; capacity := n; closed := false |}.

(** [close(ch)] *)
Definition close_chan (ch : Chan) : Chan :=
  {| queue := queue ch; capacity := capacity ch; closed := true |}.

(** What the send of a [select] finds, with no receiver waiting: room in
    the buffer, a full buffer (the send would have to wait), or a closed
    channel (the send panics). *)
Inductive SendAttempt : Type :=
| Sent (ch : Chan)
| WouldBlock
| SendPanics.

Definition try_send (ch : Chan) (message : JSON) : SendAttempt :=
  if closed ch then SendPanics
  else if decide (length (queue ch) < capacity ch)%nat
       then Sent {| queue := queue ch ++ [message];
                    capacity := capacity ch; closed := false |}
       else WouldBlock.

(** [Client]: its [send] channel and whether [conn] is still open. *)
Record Client := mkClient {
  send      : Chan;
  conn_open : bool
}.

(** [WebSocketServer]: the registry [clients] is a set of pointers, and
    [heap] holds the [Client] behind every pointer, registered or not. *)
Record WebSocketServer := mkServer {
  clients : gset nat;
  heap    : gmap nat Client
}.

(** The registration of [HandleWebSocket], for the new pointer [p]. *)
Definition HandleWebSocket (p : nat) (s : WebSocketServer)
    : WebSocketServer :=
  {| clients := {[p]} ∪ clients s;
     heap := <[p := {| send := make_chan 256; conn_open := true |}]> (heap s) |}.

(** The body of [for client := range s.clients] in [BroadcastMessages]:
    the [select] sends when it can and otherwise takes its [default]. *)
Definition dispatch_to (message : JSON) (s : WebSocketServer) (p : nat)
    : option WebSocketServer :=
  match heap s !! p with
  | None => None
  | Some client =>
      match try_send (send client) message with
      | Sent ch =>
          Some {| clients := clients s;
                  heap := <[p := {| send := ch;
                                    conn_open := conn_open client |}]> (heap s) |}
      | WouldBlock =>
          Some {| clients := clients s ∖ {[p]};
                  heap := <[p := {| send := close_chan (send client);
                                    conn_open := false |}]> (heap s) |}
      | SendPanics => None
      end
  end.

(** One message of [BroadcastMessages], the registry ranged over in the
    order [order] (Go leaves the order of a [range] over a map open);
    [None] is a panic. *)
Definition dispatch (order : list nat) (message : JSON)
    (s : WebSocketServer) : option WebSocketServer :=
  foldl (fun st p => st ≫= fun s => dispatch_to message s p) (Some s) order.

(** [order] is an order in which [range] can produce the registry. *)
Definition range_order (s : WebSocketServer) (order : list nat) : Prop :=
  NoDup order /\ forall p, p ∈ order <-> p ∈ clients s.

(** What holds of the registry whenever the dispatcher has the lock:
    every registered client was made by [HandleWebSocket] and its channel
    is not closed. *)
Definition registry_ok (s : WebSocketServer) : Prop :=
  forall p, p ∈ clients s ->
    exists client, heap s !! p = Some client /\
      closed (send client) = false /\ capacity (send client) = 256%nat.

(** * Sample inputs *)

(** A log file of five bytes. *)
Definition sample_info : os_FileInfo :=
  {| fi_Name := "app.log"; fi_Size := 5; fi_IsDir := false |}.
Definition sample_file : File :=
  {| stat := Ok sample_info; data := "hello"; read_end := None |}.

(** The same file after a write that left it one byte above the cap; the
    bytes are never read. *)
Definition big_info : os_FileInfo :=
  {| fi_Name := "app.log"; fi_Size := maxSize + 1; fi_IsDir := false |}.
Definition big_file : File :=
  {| stat := Ok big_info; data := ""; read_end := None |}.

(** A directory: it opens and [Stat] answers, but reading it fails. *)
Definition dir_info : os_FileInfo :=
  {| fi_Name := "logs"; fi_Size := 4096; fi_IsDir := true |}.
Definition dir_file : File :=
  {| stat := Ok dir_info; data := "";
     read_end := Some "read logs: is a directory" |}.

Definition sample_fs : FS := fun filePath =>
  if bool_decide (filePath = "app.log") then Ok sample_file
  else if bool_decide (filePath = "logs") then Ok dir_file
  else Err "open: no such file or directory".

Definition big_fs : FS := fun filePath =>
  if bool_decide (filePath = "app.log") then Ok big_file
  else Err "open: no such file or directory".

Definition write_event : Event := {| Name := "app.log"; ev_Op := Write |}.

(** A callback that records the changes it is given, oldest first. *)
Definition record_change (change : FileChange) (seen : list FileChange)
    : list FileChange :=
  seen ++ [change].

(** A record as [handleFileChange] builds it. *)
Definition sample_change : FileChange :=
  {| Path := "app.log"; Op := "modified"; Content := "hello";
     PrevContent := "hi"; LineChanges := Some (compareLines "hi" "hello");
     FileInfo := Some sample_info |}.

(** The value behind an [os.FileInfo] is a [*os.fileStat], a struct
    without exported fields: [encoding/json] renders it as [{}]. *)
Definition marshal_fileStat (fi : os_FileInfo) : JSON := JObject [].

(** [json.Unmarshal] on two frames: the empty object decodes to the zero
    envelope, a lone brace is not JSON. *)
Definition sample_Unmarshal (message : string) : result SocketMessage :=
  if bool_decide (message = "{}")
  then Ok {| msg_Type := ""; msg_Data := JNull |}
  else Err "unexpected end of JSON input".

Definition sample_ReadFile (path : string) : result string :=
  match sample_fs path with
  | Ok file => ReadAll file
  | Err e => Err e
  end.

(** A hub with two subscribers: the queue of the first is empty, the
    queue of the second is full. *)
Definition idle_client : Client :=
  {| send := make_chan 256; conn_open := true |}.
Definition slow_client : Client :=
  {| send := {| queue := replicate 256 JNull; capacity := 256;
                closed := false |};
     conn_open := true |}.
Definition sample_hub : WebSocketServer :=
  {| clients := {[1%nat; 2%nat]};
     heap := <[1%nat := idle_client]> {[2%nat := slow_client]} |}.

(** * Auxiliary notions for the proofs *)

(** A client after the [select] sent to it, and after the [default] of
    the [select] dropped it. *)
Definition sent_client (message : JSON) (c : Client) : Client :=
  {| send := {| queue := queue (send c) ++ [message];
                capacity := capacity (send c); closed := false |};
     conn_open := conn_open c |}.
Definition dropped_client (c : Client) : Client :=
  {| send := close_chan (send c); conn_open := false |}.

(** What makes a read fail, for either [readFileContent]. *)
Definition unreadable (fs : FS) (filePath : string) : Prop :=
  match fs filePath with
  | Err _ => True
  | Ok file =>
      match stat file with
      | Err _ => True
      | Ok fileInfo => fi_Size fileInfo > maxSize \/ read_end file <> None
      end
  end.

(** ** The backward walk, as a relation

    [walk i j cs]: [cs] is a sequence the loop can prepend while moving
    from [(i, j)] to [(0, 0)], whatever the table holds. *)
Inductive walk (oldLines newLines : list string)
    : nat -> nat -> list LineChange -> Prop :=
| walk_origin : walk oldLines newLines 0 0 []
| walk_keep i j t cs :
    oldLines !! i = Some t -> newLines !! j = Some t ->
    walk oldLines newLines i j cs -> walk oldLines newLines (S i) (S j) cs
| walk_add i j t cs :
    newLines !! j = Some t ->
    walk oldLines newLines i j cs ->
    walk oldLines newLines i (S j) (cs ++ [added_change (S j) t])
| walk_del i j t cs :
    oldLines !! i = Some t ->
    walk oldLines newLines i j cs ->
    walk oldLines newLines (S i) j (cs ++ [removed_change (S i) t]).

(** ** Invariants of the two filling loops *)

(** The table has [m + 1] rows of [n + 1] cells. *)
Definition dims (dp : Table) (m n : nat) : Prop :=
  length dp = S m /\ Forall (fun r : list Z => length r = S n) dp.

(** Rows before [i] are complete, row [i] is complete up to column [j],
    every other cell still holds the zero of [make]. *)
Definition filled_upto (oldLines newLines : list string) (dp : Table)
    (i j : nat) : Prop :=
  forall a b, (a <= length oldLines)%nat -> (b <= length newLines)%nat ->
    dp_at dp a b
    = if decide ((a < i)%nat \/ (a = i /\ (b <= j)%nat))
      then lcs oldLines newLines a b else 0.

(** * Further notions *)

(** ** Common subsequences *)

(** [c] is a subsequence of the first [i] old lines and of the first [j]
    new lines. *)
Definition common_subseq (oldLines newLines : list string) (i j : nat)
    (c : list string) : Prop :=
  c `sublist_of` take i oldLines /\ c `sublist_of` take j newLines.

(** An entry of a result is the addition of a line of the new text at
    its position, or the removal of a line of the old text at its
    position. *)
Definition entry_of (oldLines newLines : list string) (c : LineChange)
    : Prop :=
  (exists j t, newLines !! j = Some t /\ c = added_change (S j) t) \/
  (exists i t, oldLines !! i = Some t /\ c = removed_change (S i) t).

(** ** Starting a watcher *)

(** The [fsnotify.Watcher] of a watcher, by the paths it was told to
    watch. *)
Record Notifier := mkNotifier {
  watching : gset string
}.

(** [watcher.Add(path)], which the operating system may refuse. *)
Definition Add (refuse : string -> option error) (path : string)
    (w : Notifier) : Notifier * option error :=
  match refuse path with
  | Some err => (w, Some err)
  | None => ({| watching := {[path]} ∪ watching w |}, None)
  end.

(** [func (fw *FileWatcher) WatchFile(filePath, callback) error], up to
    the start of the goroutine: a nil error means the loop was started. *)
Definition WatchFile (fs : FS) (refuse : string -> option error)
    (fw : FileWatcher) (w : Notifier) (filePath : string)
    : FileWatcher * Notifier * option error :=
  match FileWatcher_readFileContent fs filePath with
  | (_, _, Some err) => (fw, w, Some err)
  | (content, _, None) =>
      let fw' := {| fileCache := <[filePath := content]> (fileCache fw) |} in
      match Add refuse filePath w with
      | (w', Some err) => (fw', w', Some ("添加文件监听失败: " +:+ err))
      | (w', None) => (fw', w', None)
      end
  end.

(** The goroutine of [WatchFile] over the notifications it receives, in
    order, each with the file system as it is when the event is handled;
    the loop returns when the channel is closed. *)
Definition WatchFile_loop {St : Type} (steps : list (FS * Event))
    (fw : FileWatcher) (callback : Callback) (st : St)
    : FileWatcher * St :=
  foldl (fun acc step =>
           WatchFile_event step.1 acc.1 step.2 callback acc.2)
        (fw, st) steps.

(** A write event whose read succeeds. *)
Definition accepted (step : FS * Event) : bool :=
  Has step.2 Write &&
  bool_decide ((FileWatcher_readFileContent step.1 (Name step.2)).2 = None).

(** The records, in order, are [modified] records and each is the diff
    of what the cache held for its path against its content. *)
Fixpoint chained (cache : gmap string string) (records : list FileChange)
    : Prop :=
  match records with
  | [] => True
  | r :: rest =>
      Op r = "modified" /\
      PrevContent r = default "" (cache !! Path r) /\
      LineChanges r = Some (compareLines (PrevContent r) (Content r)) /\
      chained (<[Path r := Content r]> cache) rest
  end.

(** The cache after the records. *)
Definition replay (cache : gmap string string) (records : list FileChange)
    : gmap string string :=
  foldl (fun c r => <[Path r := Content r]> c) cache records.

(** One call of the function that [WatchDirectory] hands to
    [filepath.Walk]: with the error of the walk, or with the information
    of the entry. *)
Inductive Visit : Type :=
| VisitError (path : string) (err : error)
| VisitEntry (path : string) (info : os_FileInfo).

(** The function literal of [WatchDirectory]. *)
Definition walkFn (refuse : string -> option error) (w : Notifier)
    (v : Visit) : Notifier * option error :=
  match v with
  | VisitError path err => (w, Some err)
  | VisitEntry path info =>
      if fi_IsDir info then
        match Add refuse path w with
        | (w', Some err) =>
            (w', Some ("添加目录监听失败 " +:+ path +:+ ": " +:+ err))
        | (w', None) => (w', None)
        end
      else (w, None)
  end.

(** [filepath.Walk] over the entries it finds, in its order: it stops at
    the first error the function returns, and returns it. *)
Fixpoint Walk (refuse : string -> option error) (visits : list Visit)
    (w : Notifier) : Notifier * option error :=
  match visits with
  | [] => (w, None)
  | v :: rest =>
      match walkFn refuse w v with
      | (w', Some err) => (w', Some err)
      | (w', None) => Walk refuse rest w'
      end
  end.

(** [WatchDirectory] from the walk on: [Some] is the error it returns;
    with [None] it waits on [done], which nothing ever sends to. *)
Definition WatchDirectory_register (refuse : string -> option error)
    (visits : list Visit) (w : Notifier) : Notifier * option error :=
  match Walk refuse visits w with
  | (w', Some err) => (w', Some ("遍历目录失败: " +:+ err))
  | (w', None) => (w', None)
  end.

(** The directories among the entries visited. *)
Definition visited_dir (visits : list Visit) (path : string) : Prop :=
  exists info, VisitEntry path info ∈ visits /\ fi_IsDir info = true.

(** No visit carries an error and no directory is refused. *)
Definition walk_clean (refuse : string -> option error)
    (visits : list Visit) : Prop :=
  forall v, v ∈ visits ->
    match v with
    | VisitError _ _ => False
    | VisitEntry path info => fi_IsDir info = true -> refuse path = None
    end.

(** A second version of the sample file, and a tree to walk. *)
Definition next_info : os_FileInfo :=
  {| fi_Name := "app.log"; fi_Size := 11; fi_IsDir := false |}.
Definition next_file : File :=
  {| stat := Ok next_info; data := "hello" +:+ nl +:+ "world";
     read_end := None |}.
Definition next_fs : FS := fun filePath =>
  if bool_decide (filePath = "app.log") then Ok next_file
  else Err "open: no such file or directory".

Definition no_refusal : string -> option error := fun _ => None.

Definition sample_visits : list Visit :=
  [ VisitEntry "logs" dir_info;
    VisitEntry "logs/app.log" sample_info ].

(** ** The connection loops *)

(** The deferred function of [handleClientRead], which runs when the
    read loop ends: it takes the client out of the registry, closes its
    [send] channel and its connection.  Closing a closed channel panics:
    [None]. *)
Definition handleClientRead_cleanup (p : nat) (s : WebSocketServer)
    : option WebSocketServer :=
  match heap s !! p with
  | None => None
  | Some client =>
      if closed (send client) then None
      else Some {| clients := clients s ∖ {[p]};
                   heap := <[p := {| send := close_chan (send client);
                                     conn_open := false |}]> (heap s) |}
  end.

(** What a connection carries to the peer. *)
Inductive Frame : Type :=
| TextFrame (message : JSON)
| CloseFrame.

(** The connection as [handleClientWrite] sees it: the frames written so
    far, and how many more calls of [WriteMessage] succeed before one
    fails. *)
Record Conn := mkConn {
  written : list Frame;
  budget  : nat
}.

(** [client.conn.WriteMessage]: the connection after the call, and
    whether the call succeeded. *)
Definition WriteMessage (f : Frame) (c : Conn) : Conn * bool :=
  match budget c with
  | O => (c, false)
  | S b => ({| written := written c ++ [f]; budget := b |}, true)
  end.

(** [handleClientWrite] from the moment the channel is closed with
    [pending] still queued: the [range] delivers what is queued and then
    ends; a failed write returns at once; after the [range] a close
    frame is written, its error ignored. *)
Fixpoint handleClientWrite (pending : list JSON) (c : Conn) : Conn :=
  match pending with
  | [] => (WriteMessage CloseFrame c).1
  | message :: rest =>
      match WriteMessage (TextFrame message) c with
      | (c', true) => handleClientWrite rest c'
      | (c', false) => c'
      end
  end.

(** The dispatcher over the messages [ms], one after the other; for
    each message [orders] gives the order in which the [range] produces
    the registry.  [None] is a panic. *)
Fixpoint dispatch_all (orders : list (list nat)) (ms : list JSON)
    (s : WebSocketServer) : option WebSocketServer :=
  match ms, orders with
  | m :: ms', order :: orders' =>
      dispatch order m s ≫= dispatch_all orders' ms'
  | _, _ => Some s
  end.

(** A hub with two subscribers whose queues are empty. *)
Definition idle_hub : WebSocketServer :=
  {| clients := {[1%nat; 2%nat]};
     heap := <[1%nat := idle_client]> {[2%nat := idle_client]} |}.

(** ** A frame, from the read to the queue *)

(** What [json.Marshal] makes of a document: every string goes through
    [coerce], the replacement of the bytes that are not valid UTF-8
    (the identity on valid UTF-8). *)
Fixpoint render (coerce : string -> string) (j : JSON) : JSON :=
  match j with
  | JNull => JNull
  | JString s => JString (coerce s)
  | JNumber z => JNumber z
  | JArray items => JArray (List.map (render coerce) items)
  | JObject members =>
      JObject (List.map (fun '(k, v) => (coerce k, render coerce v)) members)
  end.

(** How one iteration of the loop of [handleClientRead] ends. *)
Inductive ReadIteration : Type :=
| LoopBreaks               (* the read failed: the loop ends *)
| LoopGoesOn (ch : Chan)   (* next iteration, with [client.send] as [ch] *)
| LoopWaits                (* the send waits for room in [client.send] *)
| ProcessGone.             (* exit or panic: the process is gone *)

(** One iteration of the loop of [handleClientRead], with [client.send]
    as it is when the iteration runs: the read, the handler, and the
    send of [client.send <- response], which queues the rendered
    response when there is room, waits when the buffer is full and
    panics when the channel is closed. *)
Definition handleClientRead_iteration (coerce : string -> string)
    (handler : string -> Outcome (result JSON)) (read : result string)
    (ch : Chan) : ReadIteration :=
  match read with
  | Err err => LoopBreaks
  | Ok message =>
      match handler message with
      | Exits | Panics => ProcessGone
      | Returns (Err err) => LoopGoesOn ch
      | Returns (Ok response) =>
          match try_send ch (render coerce response) with
          | Sent ch' => LoopGoesOn ch'
          | WouldBlock => LoopWaits
          | SendPanics => ProcessGone
          end
      end
  end.

(** * Properties *)

(** ** The backward walk ends *)
Section Walk.
Variables oldLines newLines : list string.

Lemma line_at_lookup (lines : list string) k :
  (k < length lines)%nat -> lines !! k = Some (line_at lines k).
Proof.
  intros Hk. unfold line_at.
  destruct (lookup_lt_is_Some_2 lines k Hk) as [t ->]. reflexivity.
Qed.

(** Every iteration takes one of the three cases, so the loop ends
    within [i + j] iterations, and what it prepends is a [walk]. *)
Lemma backtrack_walk dp fuel : forall i j acc,
  (i <= length oldLines)%nat -> (j <= length newLines)%nat ->
  (i + j <= fuel)%nat ->
  exists cs, walk oldLines newLines i j cs /\
    backtrack fuel oldLines newLines dp i j acc = Some (cs ++ acc).
Proof.
  induction fuel as [|fuel IH]; intros i j acc Hi Hj Hf.
  - assert (i = 0 /\ j = 0)%nat as [-> ->] by lia.
    exists []. split; [constructor | reflexivity].
  - cbn [backtrack].
    destruct (decide (0 < i ∨ 0 < j)%nat) as [Hpos|Hzero].
    2:{ assert (i = 0 /\ j = 0)%nat as [-> ->] by lia.
        exists []. split; [constructor | reflexivity]. }
    destruct (decide _) as [(Hi0 & Hj0 & Heq)|Hne].
    { destruct i as [|i]; [lia|]. destruct j as [|j]; [lia|].
      replace (S i - 1)%nat with i in * by lia.
      replace (S j - 1)%nat with j in * by lia.
      destruct (IH i j acc) as (cs & Hw & Hb); [lia..|].
      exists cs. split; [|exact Hb].
      apply walk_keep with (t := line_at oldLines i); [| |exact Hw].
      - apply line_at_lookup. lia.
      - rewrite Heq. apply line_at_lookup. lia. }
    destruct (decide _) as [(Hj0 & Hc)|Hnadd].
    { destruct j as [|j]; [lia|].
      replace (S j - 1)%nat with j in * by lia.
      destruct (IH i j (added_change (S j) (line_at newLines j) :: acc))
        as (cs & Hw & Hb); [lia..|].
      exists (cs ++ [added_change (S j) (line_at newLines j)]).
      split.
      - apply walk_add; [|exact Hw]. apply line_at_lookup. lia.
      - rewrite Hb, <- app_assoc. reflexivity. }
    destruct (decide _) as [(Hi0 & Hc)|Hndel].
    { destruct i as [|i]; [lia|].
      replace (S i - 1)%nat with i in * by lia.
      destruct (IH i j (removed_change (S i) (line_at oldLines i) :: acc))
        as (cs & Hw & Hb); [lia..|].
      exists (cs ++ [removed_change (S i) (line_at oldLines i)]).
      split.
      - apply walk_del; [|exact Hw]. apply line_at_lookup. lia.
      - rewrite Hb, <- app_assoc. reflexivity. }
    exfalso.
    destruct (decide (j = 0%nat)) as [->|Hj0].
    + apply Hndel. split; [lia|]. left. reflexivity.
    + destruct (decide (i = 0%nat)) as [->|Hi0].
      * apply Hnadd. split; [lia|]. left. reflexivity.
      * destruct (Z_lt_ge_dec (dp_at dp i (j - 1)) (dp_at dp (i - 1) j)).
        -- apply Hndel. split; [lia|]. right. assumption.
        -- apply Hnadd. split; [lia|]. right. assumption.
Qed.

(** The loop of [compareLines] ends and returns [diff_lines]. *)
Lemma compare_loop_terminates :
  compare_loop (length oldLines + length newLines) oldLines newLines
    = Some (diff_lines oldLines newLines) /\
  walk oldLines newLines (length oldLines) (length newLines) (diff_lines oldLines newLines).
Proof.
  unfold diff_lines, compare_loop.
  destruct (backtrack_walk (fill_table oldLines newLines)
              (length oldLines + length newLines)
              (length oldLines) (length newLines) [])
    as (cs & Hw & Hb); [lia..|].
  rewrite Hb, app_nil_r. split; [reflexivity | exact Hw].
Qed.
End Walk.

(** ** Scripts produced by a walk *)

Lemma removed_lines_snoc_added cs j t :
  removed_lines (cs ++ [added_change j t]) = removed_lines cs.
Proof.
  unfold removed_lines. rewrite filter_app, fmap_app.
  cbn. apply app_nil_r.
Qed.

Lemma removed_lines_snoc_removed cs i t :
  removed_lines (cs ++ [removed_change i t]) = removed_lines cs ++ [Z.of_nat i].
Proof. unfold removed_lines. rewrite filter_app, fmap_app. reflexivity. Qed.

Lemma added_lines_snoc_added cs j t :
  added_lines (cs ++ [added_change j t]) = added_lines cs ++ [Z.of_nat j].
Proof. unfold added_lines. rewrite filter_app, fmap_app. reflexivity. Qed.

Lemma added_lines_snoc_removed cs i t :
  added_lines (cs ++ [removed_change i t]) = added_lines cs.
Proof.
  unfold added_lines. rewrite filter_app, fmap_app.
  cbn. apply app_nil_r.
Qed.

Lemma sorted_snoc_bound (l : list Z) (b : nat) :
  Forall (fun z => 1 <= z <= Z.of_nat b) l -> StronglySorted Z.le l ->
  StronglySorted Z.le (l ++ [Z.of_nat (S b)]).
Proof.
  intros Hb Hs. apply StronglySorted_app_2; [|exact Hs|repeat constructor].
  intros x1 x2 H1 H2. apply list_elem_of_singleton in H2 as ->.
  rewrite Forall_forall in Hb. specialize (Hb _ H1). lia.
Qed.

Lemma bound_snoc (l : list Z) (b : nat) :
  Forall (fun z => 1 <= z <= Z.of_nat b) l ->
  Forall (fun z => 1 <= z <= Z.of_nat (S b)) (l ++ [Z.of_nat (S b)]).
Proof.
  intros Hb. apply Forall_app. split.
  - eapply Forall_impl; [exact Hb|]. intros z Hz. cbn beta in *. lia.
  - repeat constructor; lia.
Qed.

Lemma bound_weaken (l : list Z) (b : nat) :
  Forall (fun z => 1 <= z <= Z.of_nat b) l ->
  Forall (fun z => 1 <= z <= Z.of_nat (S b)) l.
Proof.
  intros Hb. eapply Forall_impl; [exact Hb|]. intros z Hz. cbn beta in *. lia.
Qed.

Section WalkScripts.
Variables oldLines newLines : list string.

(** The line numbers of a walk from [(i, j)] lie in [1..i] and [1..j]. *)
Lemma walk_bounds i j cs :
  walk oldLines newLines i j cs ->
  Forall (fun z => 1 <= z <= Z.of_nat i) (removed_lines cs) /\
  Forall (fun z => 1 <= z <= Z.of_nat j) (added_lines cs).
Proof.
  induction 1 as [|i j t cs Ho Hn Hw [IHr IHa]
                  |i j t cs Hn Hw [IHr IHa]|i j t cs Ho Hw [IHr IHa]].
  - split; constructor.
  - split; apply bound_weaken; assumption.
  - rewrite removed_lines_snoc_added, added_lines_snoc_added.
    split; [assumption | apply bound_snoc; assumption].
  - rewrite removed_lines_snoc_removed, added_lines_snoc_removed.
    split; [apply bound_snoc; assumption | assumption].
Qed.

Lemma walk_sorted i j cs :
  walk oldLines newLines i j cs ->
  StronglySorted Z.le (removed_lines cs) /\
  StronglySorted Z.le (added_lines cs).
Proof.
  induction 1 as [|i j t cs Ho Hn Hw [IHr IHa]
                  |i j t cs Hn Hw [IHr IHa]|i j t cs Ho Hw [IHr IHa]].
  - split; constructor.
  - split; assumption.
  - rewrite removed_lines_snoc_added, added_lines_snoc_added.
    split; [assumption|].
    apply sorted_snoc_bound; [|assumption].
    apply (walk_bounds _ _ _ Hw).
  - rewrite removed_lines_snoc_removed, added_lines_snoc_removed.
    split; [|assumption].
    apply sorted_snoc_bound; [|assumption].
    apply (walk_bounds _ _ _ Hw).
Qed.
End WalkScripts.

(** ** Applying a script *)

Lemma delete_from_app rm l1 : forall k l2,
  delete_from k rm (l1 ++ l2)
  = delete_from k rm l1 ++ delete_from (k + length l1) rm l2.
Proof.
  induction l1 as [|x l1 IH]; intros k l2; cbn [delete_from app length].
  - rewrite Nat.add_0_r. reflexivity.
  - rewrite IH. replace (S k + length l1)%nat with (k + S (length l1))%nat by lia.
    destruct (decide _); reflexivity.
Qed.

Lemma delete_from_ext rm rm' l : forall k,
  (forall p, (k <= p < k + length l)%nat ->
             Z.of_nat p ∈ rm <-> Z.of_nat p ∈ rm') ->
  delete_from k rm l = delete_from k rm' l.
Proof.
  induction l as [|x l IH]; intros k Hext; cbn [delete_from]; [reflexivity|].
  rewrite (IH (S k)) by (intros p Hp; apply Hext; cbn [length]; lia).
  assert (Z.of_nat k ∈ rm <-> Z.of_nat k ∈ rm') as Hk
    by (apply Hext; cbn [length]; lia).
  destruct (decide (Z.of_nat k ∈ rm)), (decide (Z.of_nat k ∈ rm')); tauto.
Qed.

Lemma insert_at_length l x s :
  insert_at (length l) x (l ++ s) = l ++ x :: s.
Proof. unfold insert_at. rewrite take_app_length, drop_app_length. reflexivity. Qed.

Lemma insert_added_snoc cs c l :
  insert_added (cs ++ [c]) l
  = if is_added c
    then insert_at (Z.to_nat (NewLine c) - 1) (NewText c) (insert_added cs l)
    else insert_added cs l.
Proof. unfold insert_added. rewrite foldl_snoc. reflexivity. Qed.

Section ApplyScript.
Variables oldLines newLines : list string.

(** Deleting and inserting along a walk from [(i, j)] turns the first
    [i] old lines into the first [j] new lines, whatever follows. *)
Lemma walk_apply i j cs :
  walk oldLines newLines i j cs ->
  forall s,
    insert_added cs
      (delete_from 1 (removed_lines cs) (take i oldLines) ++ s)
    = take j newLines ++ s.
Proof.
  induction 1 as [|i j t cs Ho Hn Hw IH
                  |i j t cs Hn Hw IH|i j t cs Ho Hw IH]; intros s.
  - reflexivity.
  - rewrite (take_S_r _ _ _ Ho), (take_S_r _ _ _ Hn), delete_from_app.
    rewrite length_take_le by (apply lookup_lt_Some in Ho; lia).
    cbn [delete_from].
    destruct (decide _) as [Hin|_].
    { destruct (walk_bounds _ _ _ _ _ Hw) as [Hb _].
      rewrite Forall_forall in Hb. specialize (Hb _ Hin). lia. }
    rewrite <- !app_assoc. apply IH.
  - rewrite removed_lines_snoc_added, insert_added_snoc, IH.
    change (is_added (added_change (S j) t)) with true. cbv iota.
    cbn [added_change NewLine NewText].
    rewrite Nat2Z.id. replace (S j - 1)%nat with j by lia.
    rewrite (take_S_r _ _ _ Hn), <- app_assoc. cbn [app].
    rewrite <- (insert_at_length (take j newLines) t s).
    rewrite length_take_le by (apply lookup_lt_Some in Hn; lia).
    reflexivity.
  - rewrite removed_lines_snoc_removed, insert_added_snoc.
    cbn [is_added removed_change Type_ bool_decide].
    change (is_added (removed_change (S i) t)) with false. cbv iota.
    rewrite (take_S_r _ _ _ Ho), delete_from_app.
    rewrite length_take_le by (apply lookup_lt_Some in Ho; lia).
    cbn [delete_from].
    destruct (decide _) as [_|Hnin].
    2:{ exfalso. apply Hnin. apply elem_of_app. right.
        apply list_elem_of_singleton. reflexivity. }
    rewrite app_nil_r.
    rewrite (delete_from_ext _ (removed_lines cs)); [apply IH|].
    intros p Hp. rewrite elem_of_app, list_elem_of_singleton.
    rewrite length_take_le in Hp by (apply lookup_lt_Some in Ho; lia).
    split; [intros [?|?]; [assumption|lia] | auto].
Qed.
End ApplyScript.

(** ** The filled table satisfies the recurrence *)

Lemma dims_make m n : dims (make_table m n) m n.
Proof.
  split; [apply length_replicate|].
  apply Forall_replicate. apply length_replicate.
Qed.

Lemma dp_at_make m n a b : dp_at (make_table m n) a b = 0.
Proof.
  unfold dp_at, make_table.
  destruct (decide (a < S m)%nat) as [Ha|Ha].
  - rewrite lookup_replicate_2 by exact Ha. cbn [mbind option_bind].
    destruct (decide (b < S n)%nat) as [Hb|Hb].
    + rewrite lookup_replicate_2 by exact Hb. reflexivity.
    + rewrite lookup_ge_None_2; [reflexivity|].
      rewrite length_replicate. lia.
  - rewrite lookup_ge_None_2; [reflexivity|].
    rewrite length_replicate. lia.
Qed.

Lemma dims_row dp m n i :
  dims dp m n -> (i <= m)%nat ->
  exists r, dp !! i = Some r /\ length r = S n.
Proof.
  intros [Hlen Hrows] Hi.
  destruct (lookup_lt_is_Some_2 dp i) as [r Hr]; [lia|].
  exists r. split; [exact Hr|].
  rewrite Forall_forall in Hrows. apply Hrows.
  apply list_elem_of_lookup. eauto.
Qed.

Lemma dims_set dp m n i j v :
  dims dp m n -> (i <= m)%nat -> dims (dp_set i j v dp) m n.
Proof.
  intros Hd Hi. destruct (dims_row dp m n i Hd Hi) as (r & Hr & Hlen).
  destruct Hd as [Hl Hrows]. unfold dp_set. rewrite Hr. cbn [from_option]. unfold id.
  split; [rewrite length_insert; exact Hl|].
  apply Forall_insert; [exact Hrows|]. rewrite length_insert. exact Hlen.
Qed.

Lemma dp_at_set dp m n i j v a b :
  dims dp m n -> (i <= m)%nat -> (j <= n)%nat ->
  dp_at (dp_set i j v dp) a b
  = if decide (a = i /\ b = j) then v else dp_at dp a b.
Proof.
  intros Hd Hi Hj. destruct (dims_row dp m n i Hd Hi) as (r & Hr & Hlen).
  destruct Hd as [Hl _]. unfold dp_at, dp_set. rewrite Hr. cbn [from_option]. unfold id.
  destruct (decide (a = i)) as [->|Hai].
  - rewrite list_lookup_insert_eq by lia. cbn [mbind option_bind].
    rewrite Hr. cbn [mbind option_bind].
    destruct (decide (b = j)) as [->|Hbj].
    + rewrite list_lookup_insert_eq by lia.
      destruct (decide _) as [_|Hn]; [reflexivity | exfalso; auto].
    + rewrite list_lookup_insert_ne by auto.
      destruct (decide _) as [[_ ?]|_]; [congruence | reflexivity].
  - rewrite list_lookup_insert_ne by auto.
    destruct (decide _) as [[? _]|_]; [congruence | reflexivity].
Qed.

Section Table.
Variables oldLines newLines : list string.
Let m := length oldLines.
Let n := length newLines.
Local Abbreviation L := (lcs oldLines newLines).

Local Abbreviation filled := (filled_upto oldLines newLines).

Lemma lcs_col0 a : L a 0%nat = 0.
Proof. destruct a; reflexivity. Qed.

Lemma filled_make : filled (make_table m n) 0 n.
Proof.
  intros a b Ha Hb. rewrite dp_at_make.
  destruct (decide _) as [[?|[-> _]]|_]; [lia | reflexivity | reflexivity].
Qed.

Lemma filled_next_row dp i : filled dp i n -> filled dp (S i) 0.
Proof.
  intros Hf a b Ha Hb. rewrite (Hf a b Ha Hb).
  destruct (decide _) as [H1|H1], (decide _) as [H2|H2];
    try reflexivity; try (exfalso; lia).
  destruct H2 as [?|[-> ?]]; [lia|].
  assert (b = 0%nat) as -> by lia. symmetry. apply lcs_col0.
Qed.

Lemma filled_cell dp i j :
  dims dp m n -> (i < m)%nat -> (j < n)%nat ->
  filled dp (S i) j ->
  dims (fill_cell oldLines newLines (S i) (S j) dp) m n /\
  filled (fill_cell oldLines newLines (S i) (S j) dp) (S i) (S j).
Proof.
  intros Hd Hi Hj Hf. unfold fill_cell.
  replace (S i - 1)%nat with i by lia. replace (S j - 1)%nat with j by lia.
  assert (dp_at dp i j = L i j) as Hdiag.
  { rewrite Hf by lia. destruct (decide _); [reflexivity | lia]. }
  assert (dp_at dp i (S j) = L i (S j)) as Hup.
  { rewrite Hf by lia. destruct (decide _); [reflexivity | lia]. }
  assert (dp_at dp (S i) j = L (S i) j) as Hleft.
  { rewrite Hf by lia. destruct (decide _); [reflexivity | lia]. }
  assert (forall v, v = L (S i) (S j) ->
            filled (dp_set (S i) (S j) v dp) (S i) (S j)) as Hset.
  { intros v -> a b Ha Hb.
    rewrite (dp_at_set dp m n) by (assumption || lia).
    destruct (decide (a = S i /\ b = S j)) as [[-> ->]|Hne].
    - destruct (decide _); [reflexivity | lia].
    - rewrite (Hf a b Ha Hb).
      destruct (decide _), (decide _); try reflexivity; exfalso; lia. }
  rewrite Hdiag, Hup, Hleft.
  destruct (decide _) as [Heq|Hne].
  - split; [apply dims_set; (assumption || lia)|].
    apply Hset. cbn [lcs lcs_row].
    destruct (decide _); [reflexivity | contradiction].
  - split; [apply dims_set; (assumption || lia)|].
    apply Hset. cbn [lcs lcs_row].
    destruct (decide _); [contradiction | reflexivity].
Qed.

Lemma filled_row dp i :
  dims dp m n -> (i < m)%nat -> filled dp (S i) 0 ->
  forall k, (k <= n)%nat ->
    let dp' := foldl (fun dp j => fill_cell oldLines newLines (S i) j dp)
                     dp (seq 1 k) in
    dims dp' m n /\ filled dp' (S i) k.
Proof.
  intros Hd Hi Hf. induction k as [|k IH]; intros Hk; cbn zeta.
  - split; assumption.
  - rewrite seq_S, foldl_snoc. cbn [Nat.add].
    destruct IH as [Hd' Hf']; [lia|].
    apply filled_cell; (assumption || lia).
Qed.

Lemma filled_rows k :
  (k <= m)%nat ->
  let dp := foldl (fun dp i => fill_row oldLines newLines i dp)
                  (make_table m n) (seq 1 k) in
  dims dp m n /\ filled dp k n.
Proof.
  induction k as [|k IH]; intros Hk; cbn zeta.
  - split; [apply dims_make | apply filled_make].
  - rewrite seq_S, foldl_snoc. cbn [Nat.add].
    destruct IH as [Hd Hf]; [lia|].
    apply (filled_row _ k); [assumption | lia | | lia].
    apply filled_next_row. assumption.
Qed.

(** After the two loops the table is the one the recurrence defines. *)
Lemma fill_table_lcs a b :
  (a <= m)%nat -> (b <= n)%nat ->
  dp_at (fill_table oldLines newLines) a b = L a b.
Proof.
  intros Ha Hb. destruct (filled_rows m) as [_ Hf]; [lia|].
  unfold fill_table. fold m n. rewrite (Hf a b Ha Hb).
  destruct (decide _); [reflexivity | lia].
Qed.

Lemma lcs_row_nonneg x above :
  (forall j, 0 <= above j) -> forall j, 0 <= lcs_row newLines x above j.
Proof.
  intros Ha. induction j as [|j IH]; cbn [lcs_row]; [lia|].
  destruct (decide _); [specialize (Ha j); lia|].
  unfold max. destruct (Z.gtb_spec (above (S j)) (lcs_row newLines x above j));
    [apply Ha | exact IH].
Qed.

Lemma lcs_nonneg a b : 0 <= L a b.
Proof.
  revert b. induction a as [|a IH]; intros b; cbn [lcs]; [lia|].
  apply lcs_row_nonneg. exact IH.
Qed.
End Table.

(** ** One side empty *)

Lemma adds_snoc k l t :
  adds k (l ++ [t]) = adds k l ++ [added_change (k + length l) t].
Proof. unfold adds. rewrite imap_app. cbn. rewrite Nat.add_0_r. reflexivity. Qed.

Lemma removes_snoc k l t :
  removes k (l ++ [t]) = removes k l ++ [removed_change (k + length l) t].
Proof. unfold removes. rewrite imap_app. cbn. rewrite Nat.add_0_r. reflexivity. Qed.

Lemma take_S_line (lines : list string) k :
  (k < length lines)%nat ->
  take (S k) lines = take k lines ++ [line_at lines k].
Proof. intros Hk. apply take_S_r. apply line_at_lookup. exact Hk. Qed.

Section OneSided.
Variables oldLines newLines : list string.
Variable dp : Table.

(** With no old line left, every remaining new line is an addition. *)
Lemma backtrack_all_added : forall j fuel acc,
  (j <= length newLines)%nat -> (j <= fuel)%nat ->
  backtrack fuel oldLines newLines dp 0 j acc
  = Some (adds 1 (take j newLines) ++ acc).
Proof.
  induction j as [|j IH]; intros fuel acc Hj Hf.
  - destruct fuel; reflexivity.
  - destruct fuel as [|fuel]; [lia|]. cbn [backtrack].
    destruct (decide _) as [_|H]; [|exfalso; lia].
    destruct (decide _) as [(H & _)|_]; [exfalso; lia|].
    destruct (decide _) as [_|H]; [|exfalso; apply H; split; [lia|auto]].
    replace (S j - 1)%nat with j by lia.
    rewrite IH by lia. rewrite take_S_line by lia.
    rewrite adds_snoc, <- app_assoc.
    rewrite length_take_le by lia. reflexivity.
Qed.

(** With no new line left, every remaining old line is a removal. *)
Lemma backtrack_all_removed : forall i fuel acc,
  (i <= length oldLines)%nat -> (i <= fuel)%nat ->
  backtrack fuel oldLines newLines dp i 0 acc
  = Some (removes 1 (take i oldLines) ++ acc).
Proof.
  induction i as [|i IH]; intros fuel acc Hi Hf.
  - destruct fuel; reflexivity.
  - destruct fuel as [|fuel]; [lia|]. cbn [backtrack].
    destruct (decide _) as [_|H]; [|exfalso; lia].
    destruct (decide _) as [(_ & H & _)|_]; [exfalso; lia|].
    destruct (decide _) as [(H & _)|_]; [exfalso; lia|].
    destruct (decide _) as [_|H]; [|exfalso; apply H; split; [lia|auto]].
    replace (S i - 1)%nat with i by lia.
    rewrite IH by lia. rewrite take_S_line by lia.
    rewrite removes_snoc, <- app_assoc.
    rewrite length_take_le by lia. reflexivity.
Qed.
End OneSided.

(** The old text is empty: the old lines are the single line [""]. *)
Section EmptyOld.
Variable newLines : list string.
Variable dp : Table.
Hypothesis row0 : forall b, (b <= length newLines)%nat -> dp_at dp 0 b = 0.
Hypothesis row1 : forall b, (b <= length newLines)%nat -> 0 <= dp_at dp 1 b.

Lemma empty_old_step j t fuel acc :
  newLines !! j = Some t -> t <> "" ->
  backtrack (S fuel) [""] newLines dp 1 (S j) acc
  = backtrack fuel [""] newLines dp 1 j (added_change (S j) t :: acc).
Proof.
  intros Ht Hne. pose proof (lookup_lt_Some _ _ _ Ht) as Hlt.
  cbn [backtrack].
  destruct (decide _) as [_|H]; [|exfalso; lia].
  replace (S j - 1)%nat with j by lia.
  assert (line_at newLines j = t) as Hl by (unfold line_at; rewrite Ht; reflexivity).
  rewrite Hl.
  destruct (decide _) as [(_ & _ & H)|_].
  { exfalso. apply Hne. symmetry. exact H. }
  destruct (decide _) as [_|H]; [reflexivity|].
  exfalso. apply H. split; [lia|]. right.
  cbn [Nat.sub]. rewrite row0 by lia. specialize (row1 j). lia.
Qed.

Lemma empty_old_none : forall j fuel acc,
  (j <= length newLines)%nat -> (S j <= fuel)%nat ->
  "" ∉ take j newLines ->
  backtrack fuel [""] newLines dp 1 j acc
  = Some (removed_change 1 "" :: adds 1 (take j newLines) ++ acc).
Proof.
  induction j as [|j IH]; intros fuel acc Hj Hf Hnot.
  - destruct fuel as [|fuel]; [lia|]. cbn [backtrack].
    destruct (decide _) as [_|H]; [|exfalso; lia].
    destruct (decide _) as [(_ & H & _)|_]; [exfalso; lia|].
    destruct (decide _) as [(H & _)|_]; [exfalso; lia|].
    destruct (decide _) as [_|H]; [|exfalso; apply H; split; [lia|auto]].
    destruct fuel; reflexivity.
  - destruct fuel as [|fuel]; [lia|].
    rewrite take_S_line in Hnot by lia.
    rewrite (empty_old_step j (line_at newLines j)).
    + rewrite IH; [|lia|lia|].
      * rewrite take_S_line by lia. rewrite adds_snoc.
        rewrite length_take_le by lia.
        cbn [app]. rewrite <- app_assoc. reflexivity.
      * intros Hin. apply Hnot. apply elem_of_app. left. exact Hin.
    + apply line_at_lookup. lia.
    + intros Heq. apply Hnot. apply elem_of_app. right.
      rewrite Heq. apply list_elem_of_singleton. reflexivity.
Qed.

Lemma empty_old_some : forall j fuel acc l1 l2,
  (j <= length newLines)%nat -> (S j <= fuel)%nat ->
  take j newLines = l1 ++ "" :: l2 -> "" ∉ l2 ->
  backtrack fuel [""] newLines dp 1 j acc
  = Some (adds 1 l1 ++ adds (length l1 + 2) l2 ++ acc).
Proof.
  induction j as [|j IH]; intros fuel acc l1 l2 Hj Hf Hsplit Hnot.
  - cbn in Hsplit. destruct l1; discriminate.
  - destruct fuel as [|fuel]; [lia|].
    rewrite take_S_line in Hsplit by lia.
    destruct l2 as [|x l2 _] using rev_ind.
    + apply app_inj_tail in Hsplit as [Hl1 Hlast].
      cbn [backtrack].
      destruct (decide _) as [_|H]; [|exfalso; lia].
      replace (S j - 1)%nat with j by lia.
      destruct (decide _) as [_|H].
      2:{ exfalso. apply H. split; [lia|]. split; [lia|].
          rewrite Hlast. reflexivity. }
      cbn [Nat.sub]. rewrite backtrack_all_added by lia.
      rewrite Hl1. reflexivity.
    + change (l1 ++ "" :: l2 ++ [x]) with (l1 ++ ("" :: l2) ++ [x]) in Hsplit.
      rewrite app_assoc in Hsplit.
      apply app_inj_tail in Hsplit as [Hpre Hlast].
      assert (x <> "") as Hx.
      { intros ->. apply Hnot. apply elem_of_app. right.
        apply list_elem_of_singleton. reflexivity. }
      rewrite (empty_old_step j x);
        [|rewrite <- Hlast; apply line_at_lookup; lia|exact Hx].
      rewrite (IH _ _ l1 l2); [|lia|lia|exact Hpre|].
      2:{ intros Hin. apply Hnot. apply elem_of_app. left. exact Hin. }
      rewrite adds_snoc, <- !app_assoc. cbn [app].
      assert (length (take j newLines) = j) as Hlen
        by (apply length_take_le; lia).
      rewrite Hpre, length_app in Hlen. cbn [length] in Hlen.
      replace (length l1 + 2 + length l2)%nat with (S j) by lia.
      reflexivity.
Qed.
End EmptyOld.

(** The new text is empty: the new lines are the single line [""]. *)
Section EmptyNew.
Variable oldLines : list string.
Variable dp : Table.
Hypothesis col0 : forall a, (a <= length oldLines)%nat -> dp_at dp a 0 = 0.
Hypothesis col1 : forall a, (a <= length oldLines)%nat ->
  dp_at dp a 1 = if decide ("" ∈ take a oldLines) then 1 else 0.

Lemma empty_new_none i fuel acc :
  (i <= length oldLines)%nat -> (S i <= fuel)%nat ->
  "" ∉ take i oldLines ->
  backtrack fuel oldLines [""] dp i 1 acc
  = Some (removes 1 (take i oldLines) ++ added_change 1 "" :: acc).
Proof.
  intros Hi Hf Hnot. destruct fuel as [|fuel]; [lia|].
  cbn [backtrack].
  destruct (decide _) as [_|H]; [|exfalso; lia].
  destruct (decide _) as [(Hpos & _ & Heq)|_].
  { exfalso. apply Hnot. destruct i as [|i]; [lia|].
    replace (S i - 1)%nat with i in Heq by lia.
    rewrite take_S_line by lia. apply elem_of_app. right.
    rewrite Heq. apply list_elem_of_singleton. reflexivity. }
  destruct (decide _) as [_|H].
  - cbn [Nat.sub]. rewrite backtrack_all_removed by lia. reflexivity.
  - exfalso. apply H. split; [lia|].
    destruct i as [|i]; [left; reflexivity|right].
    replace (S i - 1)%nat with i by lia. cbn [Nat.sub].
    rewrite col0, col1 by lia.
    destruct (decide _) as [Hin|_]; [|lia].
    exfalso. apply Hnot. rewrite take_S_line by lia.
    apply elem_of_app. left. exact Hin.
Qed.

Lemma empty_new_some : forall i fuel acc l1 l2,
  (i <= length oldLines)%nat -> (S i <= fuel)%nat ->
  take i oldLines = l1 ++ "" :: l2 -> "" ∉ l2 ->
  backtrack fuel oldLines [""] dp i 1 acc
  = Some (removes 1 l1 ++ removes (length l1 + 2) l2 ++ acc).
Proof.
  induction i as [|i IH]; intros fuel acc l1 l2 Hi Hf Hsplit Hnot.
  - cbn in Hsplit. destruct l1; discriminate.
  - destruct fuel as [|fuel]; [lia|].
    pose proof Hsplit as Hfull.
    rewrite take_S_line in Hsplit by lia.
    cbn [backtrack].
    destruct (decide _) as [_|H]; [|exfalso; lia].
    replace (S i - 1)%nat with i by lia. cbn [Nat.sub].
    destruct l2 as [|x l2 _] using rev_ind.
    + apply app_inj_tail in Hsplit as [Hl1 Hlast].
      destruct (decide _) as [_|H].
      2:{ exfalso. apply H. split; [lia|]. split; [lia|].
          rewrite Hlast. reflexivity. }
      rewrite backtrack_all_removed by lia.
      rewrite Hl1. reflexivity.
    + change (l1 ++ "" :: l2 ++ [x]) with (l1 ++ ("" :: l2) ++ [x]) in Hsplit.
      rewrite app_assoc in Hsplit.
      apply app_inj_tail in Hsplit as [Hpre Hlast].
      assert (x <> "") as Hx.
      { intros ->. apply Hnot. apply elem_of_app. right.
        apply list_elem_of_singleton. reflexivity. }
      destruct (decide _) as [(_ & _ & H)|_].
      { exfalso. apply Hx. rewrite <- Hlast. exact H. }
      rewrite col0, col1 by lia. rewrite Hpre.
      destruct (decide ("" ∈ l1 ++ "" :: l2)) as [_|Hn].
      2:{ exfalso. apply Hn. apply elem_of_app. right. left. }
      destruct (decide _) as [(_ & [H|H])|_]; [exfalso; lia..|].
      destruct (decide _) as [_|H].
      2:{ exfalso. apply H. split; [lia|]. right. lia. }
      rewrite Hlast.
      rewrite (IH _ _ l1 l2); [|lia|lia|exact Hpre|].
      2:{ intros Hin. apply Hnot. apply elem_of_app. left. exact Hin. }
      rewrite removes_snoc, <- !app_assoc. cbn [app].
      assert (length (take i oldLines) = i) as Hlen
        by (apply length_take_le; lia).
      rewrite Hpre, length_app in Hlen. cbn [length] in Hlen.
      replace (length l1 + 2 + length l2)%nat with (S i) by lia.
      reflexivity.
Qed.
End EmptyNew.

(** The column of the table that faces the single new line [""]. *)
Lemma lcs_empty_new (oldLines : list string) : forall a,
  (a <= length oldLines)%nat ->
  lcs oldLines [""] a 1 = if decide ("" ∈ take a oldLines) then 1 else 0.
Proof.
  induction a as [|a IH]; intros Ha.
  - cbn. destruct (decide _) as [H|_]; [|reflexivity]. inversion H.
  - cbn [lcs lcs_row]. rewrite take_S_line by lia.
    change (line_at [""] 0) with "".
    destruct (decide (line_at oldLines a = "")) as [Heq|Hne].
    + rewrite lcs_col0. rewrite decide_True; [reflexivity|].
      apply elem_of_app. right.
      rewrite Heq. apply list_elem_of_singleton. reflexivity.
    + rewrite IH by lia. clear IH.
      destruct (decide ("" ∈ take a oldLines)) as [Hin|Hnin].
      * rewrite decide_True; [reflexivity|].
        apply elem_of_app. left. exact Hin.
      * rewrite decide_False; [reflexivity|].
        intros H. apply elem_of_app in H as [H|H]; [auto|].
        apply list_elem_of_singleton in H. auto.
Qed.

Section EmptySide.
Variable lines : list string.

Lemma table_row0 b :
  (b <= length lines)%nat -> dp_at (fill_table [""] lines) 0 b = 0.
Proof. intros Hb. rewrite fill_table_lcs by (cbn [length]; lia). reflexivity. Qed.

Lemma table_row1 b :
  (b <= length lines)%nat -> 0 <= dp_at (fill_table [""] lines) 1 b.
Proof.
  intros Hb. rewrite fill_table_lcs by (cbn [length]; lia).
  apply lcs_nonneg.
Qed.

Lemma table_col0 a :
  (a <= length lines)%nat -> dp_at (fill_table lines [""]) a 0 = 0.
Proof.
  intros Ha. rewrite fill_table_lcs by (cbn [length]; lia).
  apply lcs_col0.
Qed.

Lemma table_col1 a :
  (a <= length lines)%nat ->
  dp_at (fill_table lines [""]) a 1
  = if decide ("" ∈ take a lines) then 1 else 0.
Proof.
  intros Ha. rewrite fill_table_lcs by (cbn [length]; lia).
  apply lcs_empty_new. exact Ha.
Qed.

Lemma diff_empty_old_none :
  "" ∉ lines ->
  diff_lines [""] lines = removed_change 1 "" :: adds 1 lines.
Proof.
  intros Hnot. unfold diff_lines, compare_loop. cbn [length].
  rewrite (empty_old_none lines _ table_row0 table_row1);
    [|lia|lia|rewrite take_ge by lia; exact Hnot].
  rewrite take_ge by lia. cbn [from_option]. unfold id.
  rewrite app_nil_r. reflexivity.
Qed.

Lemma diff_empty_old_some l1 l2 :
  lines = l1 ++ "" :: l2 -> "" ∉ l2 ->
  diff_lines [""] lines = adds 1 l1 ++ adds (length l1 + 2) l2.
Proof.
  intros Hsplit Hnot. unfold diff_lines, compare_loop. cbn [length].
  rewrite (empty_old_some lines _ table_row0 table_row1 _ _ _ l1 l2);
    [|lia|lia|rewrite take_ge by lia; exact Hsplit|exact Hnot].
  cbn [from_option]. unfold id. rewrite app_nil_r. reflexivity.
Qed.

Lemma diff_empty_new_none :
  "" ∉ lines ->
  diff_lines lines [""] = removes 1 lines ++ [added_change 1 ""].
Proof.
  intros Hnot. unfold diff_lines, compare_loop. cbn [length].
  rewrite (empty_new_none lines _ table_col0 table_col1);
    [|lia|lia|rewrite take_ge by lia; exact Hnot].
  rewrite take_ge by lia. reflexivity.
Qed.

Lemma diff_empty_new_some l1 l2 :
  lines = l1 ++ "" :: l2 -> "" ∉ l2 ->
  diff_lines lines [""] = removes 1 l1 ++ removes (length l1 + 2) l2.
Proof.
  intros Hsplit Hnot. unfold diff_lines, compare_loop. cbn [length].
  rewrite (empty_new_some lines _ table_col0 table_col1 _ _ _ l1 l2);
    [|lia|lia|rewrite take_ge by lia; exact Hsplit|exact Hnot].
  cbn [from_option]. unfold id. rewrite app_nil_r. reflexivity.
Qed.
End EmptySide.

(** * The claims about [compareLines] *)

(** C4. For all line sequences, and so for the lines of all contents, the
    loop of [compareLines] ends, and applying its result to the old lines
    as an edit script (delete the [removed] lines at their [OldLine],
    insert the [added] lines at their [NewLine]) gives the new lines. *)
Theorem compareLines_reconstructs :
  (forall oldLines newLines : list string,
     compare_loop (length oldLines + length newLines) oldLines newLines
       = Some (diff_lines oldLines newLines) /\
     apply_script (diff_lines oldLines newLines) oldLines = newLines) /\
  (forall oldContent newContent : string,
     apply_script (compareLines oldContent newContent) (Split oldContent)
     = Split newContent).
Proof.
  assert (forall oldLines newLines : list string,
     compare_loop (length oldLines + length newLines) oldLines newLines
       = Some (diff_lines oldLines newLines) /\
     apply_script (diff_lines oldLines newLines) oldLines = newLines) as Hlines.
  { intros oldLines newLines.
    destruct (compare_loop_terminates oldLines newLines) as [Hrun Hw].
    split; [exact Hrun|].
    pose proof (walk_apply _ _ _ _ _ Hw []) as Happ.
    rewrite !app_nil_r, !take_ge in Happ by lia. exact Happ. }
  split; [exact Hlines|].
  intros oldContent newContent. apply Hlines.
Qed.

(** C7, as the code has it.  The empty text is the single line [""].
    Against it, a text [T] none of whose lines is empty gives one entry
    per line of [T], numbered by position, together with one entry of the
    other kind for the line [""]; a text with an empty line gives one
    entry per line except its last empty line, which is matched with
    [""] and reported by no entry. *)
Theorem compareLines_empty_side (T : string) :
  ("" ∉ Split T ->
     compareLines "" T = removed_change 1 "" :: adds 1 (Split T) /\
     compareLines T "" = removes 1 (Split T) ++ [added_change 1 ""]) /\
  (forall l1 l2, Split T = l1 ++ "" :: l2 -> "" ∉ l2 ->
     compareLines "" T = adds 1 l1 ++ adds (length l1 + 2) l2 /\
     compareLines T "" = removes 1 l1 ++ removes (length l1 + 2) l2).
Proof.
  unfold compareLines. change (Split "") with [""]. split.
  - intros Hnot. split.
    + apply diff_empty_old_none. exact Hnot.
    + apply diff_empty_new_none. exact Hnot.
  - intros l1 l2 Hsplit Hnot. split.
    + apply diff_empty_old_some; assumption.
    + apply diff_empty_new_some; assumption.
Qed.

Lemma compareLines_empty_side_witness :
  compareLines "" ("a" +:+ nl +:+ nl +:+ "b")
    = [added_change 1 "a"; added_change 3 "b"] /\
  compareLines ("a" +:+ nl +:+ nl +:+ "b") ""
    = [removed_change 1 "a"; removed_change 3 "b"].
Proof.
  apply (proj2 (compareLines_empty_side ("a" +:+ nl +:+ nl +:+ "b"))
           ["a"] ["b"]).
  - reflexivity.
  - intros H. apply list_elem_of_singleton in H. discriminate H.
Defined.

(** C7, as stated, fails: the text of the three lines ["a"], [""], ["b"]
    gets two [added] entries, not three. *)
Lemma compareLines_empty_old_counterexample :
  compareLines "" ("a" +:+ nl +:+ nl +:+ "b")
    = [added_change 1 "a"; added_change 3 "b"] /\
  Split ("a" +:+ nl +:+ nl +:+ "b") = ["a"; ""; "b"] /\
  compareLines "" ("a" +:+ nl +:+ nl +:+ "b")
    <> adds 1 (Split ("a" +:+ nl +:+ nl +:+ "b")).
Proof.
  split; [vm_compute; reflexivity|].
  split; [reflexivity|].
  vm_compute. discriminate.
Qed.

(** C8. Old lines [a, b, c] against new lines [a, x, c]: the removal of
    line 2 ["b"], then the addition of line 2 ["x"], and nothing else.
    At [(2, 2)] the cell to the left and the cell above tie, so the walk
    records the addition first; it prepends, so the removal comes first
    in the result. *)
Theorem compareLines_substitution :
  Split ("a" +:+ nl +:+ "b" +:+ nl +:+ "c") = ["a"; "b"; "c"] /\
  Split ("a" +:+ nl +:+ "x" +:+ nl +:+ "c") = ["a"; "x"; "c"] /\
  dp_at (fill_table ["a"; "b"; "c"] ["a"; "x"; "c"]) 2 1 = 1 /\
  dp_at (fill_table ["a"; "b"; "c"] ["a"; "x"; "c"]) 1 2 = 1 /\
  compare_loop 6 ["a"; "b"; "c"] ["a"; "x"; "c"]
    = Some [removed_change 2 "b"; added_change 2 "x"] /\
  compareLines ("a" +:+ nl +:+ "b" +:+ nl +:+ "c")
               ("a" +:+ nl +:+ "x" +:+ nl +:+ "c")
    = [ {| Type_ := "removed"; OldLine := 2; NewLine := 0;
           OldText := "b"; NewText := "" |};
        {| Type_ := "added"; OldLine := 0; NewLine := 2;
           OldText := ""; NewText := "x" |} ].
Proof. repeat split; vm_compute; reflexivity. Qed.

(** C9. In the result of [compareLines], read in output order, the
    [OldLine] of the [removed] entries and the [NewLine] of the [added]
    entries never decrease. *)
Theorem compareLines_monotonic :
  (forall oldLines newLines : list string,
     StronglySorted Z.le (removed_lines (diff_lines oldLines newLines)) /\
     StronglySorted Z.le (added_lines (diff_lines oldLines newLines))) /\
  (forall oldContent newContent : string,
     StronglySorted Z.le (removed_lines (compareLines oldContent newContent)) /\
     StronglySorted Z.le (added_lines (compareLines oldContent newContent))).
Proof.
  assert (forall oldLines newLines : list string,
     StronglySorted Z.le (removed_lines (diff_lines oldLines newLines)) /\
     StronglySorted Z.le (added_lines (diff_lines oldLines newLines))) as Hlines.
  { intros oldLines newLines.
    destruct (compare_loop_terminates oldLines newLines) as [_ Hw].
    exact (walk_sorted _ _ _ _ _ Hw). }
  split; [exact Hlines|]. intros. apply Hlines.
Qed.

(** * The watcher: reading a file *)

Lemma append_cons a s1 s2 : String a s1 +:+ s2 = String a (s1 +:+ s2).
Proof. reflexivity. Qed.

Lemma append_empty_r s : s +:+ "" = s.
Proof.
  induction s as [|a s IH]; [reflexivity|].
  rewrite append_cons, IH. reflexivity.
Qed.

Lemma append_assoc s1 s2 s3 : (s1 +:+ s2) +:+ s3 = s1 +:+ (s2 +:+ s3).
Proof.
  induction s1 as [|a s1 IH]; [reflexivity|].
  rewrite !append_cons, IH. reflexivity.
Qed.

(** [ReadString] splits the unread bytes and, when it finds a newline,
    leaves strictly fewer bytes unread. *)
Lemma ReadString_spec unread :
  match ReadString unread with
  | (line, Some rest) =>
      unread = line +:+ rest /\
      (String.length rest < String.length unread)%nat
  | (line, None) => line = unread
  end.
Proof.
  induction unread as [|c unread IH]; cbn [ReadString]; [reflexivity|].
  destruct (Ascii.eqb c newline).
  - split; [reflexivity | cbn [String.length]; lia].
  - destruct (ReadString unread) as [line [rest|]].
    + destruct IH as [-> Hlen]. split; [reflexivity|].
      cbn [String.length]. lia.
    + rewrite IH. reflexivity.
Qed.

(** The loop ends, and it has then copied every byte into the buffer. *)
Lemma read_lines_all fin : forall fuel unread buffer,
  (String.length unread < fuel)%nat ->
  read_lines fuel unread fin buffer
  = Some (match fin with
          | None => Ok (buffer +:+ unread)
          | Some e => Err e
          end).
Proof.
  induction fuel as [|fuel IH]; intros unread buffer Hf; [lia|].
  cbn [read_lines]. pose proof (ReadString_spec unread) as Hs.
  destruct (ReadString unread) as [line [rest|]].
  - destruct Hs as [-> Hlen]. rewrite IH by lia.
    rewrite append_assoc. reflexivity.
  - rewrite Hs. destruct fin; reflexivity.
Qed.

Lemma read_buffered_ReadAll f : read_buffered f = ReadAll f.
Proof.
  unfold read_buffered, ReadAll. rewrite read_lines_all by lia.
  destruct (read_end f); reflexivity.
Qed.

Lemma FileWatcher_readFileContent_fails fs filePath :
  (FileWatcher_readFileContent fs filePath).2 <> None <->
  unreadable fs filePath.
Proof.
  unfold FileWatcher_readFileContent, unreadable.
  destruct (fs filePath) as [file|e]; [|cbn; split; [tauto | discriminate]].
  destruct (stat file) as [fileInfo|e]; [|cbn; split; [tauto | discriminate]].
  rewrite read_buffered_ReadAll. unfold ReadAll.
  destruct (Z.gtb_spec (fi_Size fileInfo) maxSize) as [Hgt|Hle].
  - cbn. split; [intros _; left; lia | discriminate].
  - destruct (read_end file) as [e|]; cbn.
    + split; [intros _; right; discriminate | discriminate].
    + split; [congruence | intros [?|?]; [lia | congruence]].
Qed.

Lemma readFileContent_fails fs filePath :
  (readFileContent fs filePath).2 <> None <-> unreadable fs filePath.
Proof.
  unfold readFileContent, unreadable.
  destruct (fs filePath) as [file|e]; [|cbn; split; [tauto | discriminate]].
  destruct (stat file) as [fileInfo|e]; [|cbn; split; [tauto | discriminate]].
  unfold ReadAll.
  destruct (Z.gtb_spec (fi_Size fileInfo) maxSize) as [Hgt|Hle].
  - cbn. split; [intros _; left; lia | discriminate].
  - destruct (read_end file) as [e|]; cbn.
    + split; [intros _; right; discriminate | discriminate].
    + split; [congruence | intros [?|?]; [lia | congruence]].
Qed.

(** A file that opens, whose size is within the cap and whose reads end
    in [io.EOF], is read whole by both functions. *)
Lemma read_ok fs filePath file fileInfo :
  fs filePath = Ok file -> stat file = Ok fileInfo ->
  fi_Size fileInfo <= maxSize -> read_end file = None ->
  FileWatcher_readFileContent fs filePath = (data file, Some fileInfo, None) /\
  readFileContent fs filePath = (data file, Some fileInfo, None).
Proof.
  intros Hopen Hstat Hsize Hend.
  unfold FileWatcher_readFileContent, readFileContent.
  rewrite Hopen, Hstat, read_buffered_ReadAll. unfold ReadAll. rewrite Hend.
  destruct (Z.gtb_spec (fi_Size fileInfo) maxSize); [lia|].
  split; reflexivity.
Qed.

(** * The claims about the watcher *)

(** What either loop does with a write notification whose read succeeds:
    [WatchFile] takes the old content from the cache, diffs, stores the
    new content and hands the callback a [modified] record with the diff;
    [WatchDirectory] builds its [modified] record from the new content
    alone. *)
Lemma write_event_handled {St : Type} (fs : FS) (fw : FileWatcher)
    (event : Event) (f : FileChange -> St -> St) (st : St)
    (newContent : string) (fileInfo : option os_FileInfo) :
  Has event Write = true ->
  (FileWatcher_readFileContent fs (Name event) = (newContent, fileInfo, None) ->
   WatchFile_event fs fw event (Some f) st
   = ({| fileCache := <[Name event := newContent]> (fileCache fw) |},
      f {| Path := Name event; Op := "modified";
           Content := newContent;
           PrevContent := cache_get fw (Name event);
           LineChanges :=
             Some (compareLines (cache_get fw (Name event)) newContent);
           FileInfo := fileInfo |} st)) /\
  (readFileContent fs (Name event) = (newContent, fileInfo, None) ->
   WatchDirectory_event fs event (Some f) st
   = f {| Path := Name event; Op := "modified";
          Content := newContent; PrevContent := "";
          LineChanges := None; FileInfo := fileInfo |} st).
Proof.
  intros Hw. split; intros Hread.
  - unfold WatchFile_event, handleFileChange. rewrite Hw, Hread. reflexivity.
  - unfold WatchDirectory_event, event_op. rewrite Hw, Hread. reflexivity.
Qed.

Lemma write_event_handled_witness :
  WatchFile_event sample_fs {| fileCache := {["app.log" := "hi"]} |}
    write_event (Some record_change) []
  = ({| fileCache := <["app.log" := "hello"]> {["app.log" := "hi"]} |},
     [ {| Path := "app.log"; Op := "modified"; Content := "hello";
          PrevContent := "hi";
          LineChanges := Some (compareLines "hi" "hello");
          FileInfo := Some sample_info |} ]) /\
  WatchDirectory_event sample_fs write_event (Some record_change) []
  = [ {| Path := "app.log"; Op := "modified"; Content := "hello";
         PrevContent := ""; LineChanges := None;
         FileInfo := Some sample_info |} ].
Proof.
  destruct (write_event_handled sample_fs {| fileCache := {["app.log" := "hi"]} |}
              write_event record_change [] "hello" (Some sample_info))
    as [Hfile Hdir]; [reflexivity|].
  split; [apply Hfile | apply Hdir]; reflexivity.
Defined.

(** C2 at a write in the directory mode.  The file reads as ["hello"].
    [WatchFile] hands its callback a [modified] record with the diff
    against the cache; [WatchDirectory], for the same event on the same
    file, hands its callback a [modified] record whose [LineChanges] is
    the nil slice, which is the diff against no previous content at all,
    and which goes on the wire as [null]. *)
Theorem directory_write_no_diff :
  Has write_event Write = true /\
  readFileContent sample_fs (Name write_event)
    = ("hello", Some sample_info, None) /\
  (WatchFile_event sample_fs {| fileCache := {["app.log" := "hi"]} |}
     write_event (Some record_change) []).2
  = [ {| Path := "app.log"; Op := "modified"; Content := "hello";
         PrevContent := "hi";
         LineChanges := Some (compareLines "hi" "hello");
         FileInfo := Some sample_info |} ] /\
  compareLines "hi" "hello"
  = [removed_change 1 "hi"; added_change 1 "hello"] /\
  exists change,
    WatchDirectory_event sample_fs write_event (Some record_change) []
      = [change] /\
    Op change = "modified" /\
    LineChanges change = None /\
    (forall oldContent,
       LineChanges change <> Some (compareLines oldContent "hello")) /\
    forall marshal_FileInfo,
      marshal_FileChange marshal_FileInfo change
      = JObject [ ("path", JString "app.log"); ("op", JString "modified");
                  ("line_changes", JNull);
                  ("file_info", marshal_FileInfo sample_info) ].
Proof.
  split; [reflexivity|]. split; [reflexivity|].
  split; [reflexivity|]. split; [vm_compute; reflexivity|].
  eexists. split; [reflexivity|].
  split; [reflexivity|]. split; [reflexivity|].
  split; [intros oldContent; discriminate|].
  intros marshal_FileInfo. reflexivity.
Qed.

(** C6. A single-file watcher holds [C] for the path.  A write that
    leaves the file above 10 MiB gives no record and leaves the cache as
    it was; the next write, read with success under the cap, is diffed
    against [C]. *)
Theorem oversized_write_skipped {St : Type} (fs fs' : FS) (fw : FileWatcher)
    (event : Event) (f : FileChange -> St -> St) (st : St) (C : string)
    (file file' : File) (fileInfo fileInfo' : os_FileInfo) :
  Has event Write = true ->
  fileCache fw !! Name event = Some C ->
  fs (Name event) = Ok file -> stat file = Ok fileInfo ->
  fi_Size fileInfo > maxSize ->
  fs' (Name event) = Ok file' -> stat file' = Ok fileInfo' ->
  fi_Size fileInfo' <= maxSize -> read_end file' = None ->
  let after := WatchFile_event fs fw event (Some f) st in
  after = (fw, st) /\
  fileCache after.1 !! Name event = Some C /\
  WatchFile_event fs' after.1 event (Some f) after.2
  = ({| fileCache := <[Name event := data file']> (fileCache fw) |},
     f {| Path := Name event; Op := "modified";
          Content := data file'; PrevContent := C;
          LineChanges := Some (compareLines C (data file'));
          FileInfo := Some fileInfo' |} st).
Proof.
  intros Hw HC Hopen Hstat Hbig Hopen' Hstat' Hsmall Hend.
  assert (WatchFile_event fs fw event (Some f) st = (fw, st)) as Hfirst.
  { unfold WatchFile_event, handleFileChange, FileWatcher_readFileContent.
    rewrite Hw, Hopen, Hstat.
    destruct (Z.gtb_spec (fi_Size fileInfo) maxSize); [reflexivity | lia]. }
  cbv zeta. rewrite Hfirst. cbn [fst snd].
  split; [reflexivity|]. split; [exact HC|].
  destruct (read_ok fs' (Name event) file' fileInfo' Hopen' Hstat' Hsmall Hend)
    as [Hread _].
  unfold WatchFile_event, handleFileChange. rewrite Hw, Hread.
  unfold cache_get. rewrite HC. reflexivity.
Qed.

Lemma oversized_write_skipped_witness :
  let fw := {| fileCache := {["app.log" := "hi"]} |} in
  let after := WatchFile_event big_fs fw write_event (Some record_change) [] in
  after = (fw, []) /\
  fileCache after.1 !! Name write_event = Some "hi" /\
  WatchFile_event sample_fs after.1 write_event (Some record_change) after.2
  = ({| fileCache := <[Name write_event := data sample_file]> (fileCache fw) |},
     record_change
       {| Path := Name write_event; Op := "modified";
          Content := data sample_file; PrevContent := "hi";
          LineChanges := Some (compareLines "hi" (data sample_file));
          FileInfo := Some sample_info |} []).
Proof.
  intros fw.
  apply (oversized_write_skipped big_fs sample_fs fw write_event
           record_change [] "hi" big_file sample_file big_info sample_info).
  - reflexivity.
  - reflexivity.
  - reflexivity.
  - reflexivity.
  - unfold big_info, maxSize. cbn. lia.
  - reflexivity.
  - reflexivity.
  - unfold sample_info, maxSize. cbn. lia.
  - reflexivity.
Defined.

(** C10, as the code has it.  Either [readFileContent] fails exactly when
    the file cannot be opened, cannot be stat'ed, is strictly larger than
    10 MiB, or a read of its content fails; the event is then dropped, by
    [handleFileChange] in the single-path mode and by the loop of
    [WatchDirectory] (for a write or a create, the events it reads the
    file for) in the directory mode.  The cap is strict: a file of
    exactly 10 MiB whose reads succeed is returned whole, and either mode
    hands its record to the callback. *)
Theorem readFileContent_failure (fs : FS) (filePath : string) :
  ((FileWatcher_readFileContent fs filePath).2 <> None <->
   match fs filePath with
   | Err _ => True
   | Ok file =>
       match stat file with
       | Err _ => True
       | Ok fileInfo =>
           fi_Size fileInfo > 10 * 1024 * 1024 \/ read_end file <> None
       end
   end) /\
  ((readFileContent fs filePath).2 <> None <->
   (FileWatcher_readFileContent fs filePath).2 <> None) /\
  (forall (St : Type) (fw : FileWatcher) (callback : Callback) (st : St),
     (FileWatcher_readFileContent fs filePath).2 <> None ->
     handleFileChange fs fw filePath callback st = (fw, st)) /\
  (forall (St : Type) (fw : FileWatcher) (event : Event)
          (callback : Callback) (st : St),
     Name event = filePath -> Has event Write = true ->
     (FileWatcher_readFileContent fs filePath).2 <> None ->
     WatchFile_event fs fw event callback st = (fw, st)) /\
  (forall (St : Type) (event : Event) (callback : Callback) (st : St),
     Name event = filePath ->
     Has event Write = true \/ Has event Create = true ->
     (readFileContent fs filePath).2 <> None ->
     WatchDirectory_event fs event callback st = st) /\
  (forall file fileInfo,
     fs filePath = Ok file -> stat file = Ok fileInfo ->
     fi_Size fileInfo = 10 * 1024 * 1024 -> read_end file = None ->
     FileWatcher_readFileContent fs filePath
       = (data file, Some fileInfo, None) /\
     readFileContent fs filePath = (data file, Some fileInfo, None) /\
     (forall (St : Type) (fw : FileWatcher) (f : FileChange -> St -> St)
             (st : St),
        handleFileChange fs fw filePath (Some f) st
        = ({| fileCache := <[filePath := data file]> (fileCache fw) |},
           f {| Path := filePath; Op := "modified"; Content := data file;
                PrevContent := cache_get fw filePath;
                LineChanges :=
                  Some (compareLines (cache_get fw filePath) (data file));
                FileInfo := Some fileInfo |} st)) /\
     (forall (St : Type) (event : Event) (f : FileChange -> St -> St)
             (st : St),
        Name event = filePath -> Has event Write = true ->
        WatchDirectory_event fs event (Some f) st
        = f {| Path := filePath; Op := "modified"; Content := data file;
               PrevContent := ""; LineChanges := None;
               FileInfo := Some fileInfo |} st)).
Proof.
  assert (forall (St : Type) (fw : FileWatcher) (callback : Callback)
                 (st : St),
            (FileWatcher_readFileContent fs filePath).2 <> None ->
            handleFileChange fs fw filePath callback st = (fw, st)) as Hdrop.
  { intros St fw callback st Hfail. unfold handleFileChange.
    destruct (FileWatcher_readFileContent fs filePath) as [[c fi] [e|]];
      [reflexivity | contradiction]. }
  split; [apply FileWatcher_readFileContent_fails|].
  split.
  { rewrite FileWatcher_readFileContent_fails, readFileContent_fails.
    reflexivity. }
  split; [exact Hdrop|]. split; [|split].
  - intros St fw event callback st Hname Hw Hfail.
    unfold WatchFile_event. rewrite Hw, Hname. apply Hdrop. exact Hfail.
  - intros St event callback st Hname Hop Hfail.
    unfold WatchDirectory_event, event_op. rewrite Hname.
    destruct (Has event Write).
    + rewrite bool_decide_eq_false_2 by (intros [H|H]; discriminate H).
      destruct (readFileContent fs filePath) as [[c fi] [e|]];
        [reflexivity | contradiction].
    + destruct Hop as [Hop|Hop]; [discriminate Hop|]. rewrite Hop.
      rewrite bool_decide_eq_false_2 by (intros [H|H]; discriminate H).
      destruct (readFileContent fs filePath) as [[c fi] [e|]];
        [reflexivity | contradiction].
  - intros file fileInfo Hopen Hstat Hsize Hend.
    destruct (read_ok fs filePath file fileInfo Hopen Hstat
                ltac:(unfold maxSize; lia) Hend) as [Hmethod Hfree].
    split; [exact Hmethod|]. split; [exact Hfree|]. split.
    + intros St fw f st. unfold handleFileChange. rewrite Hmethod.
      reflexivity.
    + intros St event f st Hname Hw.
      unfold WatchDirectory_event, event_op. rewrite Hw, Hname, Hfree.
      reflexivity.
Qed.

Lemma readFileContent_failure_witness :
  handleFileChange sample_fs {| fileCache := {["logs" := "hi"]} |} "logs"
    (Some record_change) []
  = ({| fileCache := {["logs" := "hi"]} |}, []) /\
  WatchDirectory_event sample_fs {| Name := "logs"; ev_Op := Create |}
    (Some record_change) []
  = [].
Proof.
  pose proof (readFileContent_failure sample_fs "logs")
    as (_ & _ & Hfile & _ & Hdir & _).
  split.
  - apply Hfile. discriminate.
  - apply Hdir; [reflexivity | right; reflexivity | discriminate].
Defined.

(** C10, as stated, fails: a directory opens, is stat'ed and is small,
    and still neither function can read it. *)
Lemma readFileContent_read_error_counterexample :
  sample_fs "logs" = Ok dir_file /\
  stat dir_file = Ok dir_info /\
  fi_Size dir_info <= maxSize /\
  FileWatcher_readFileContent sample_fs "logs"
    = ("", None, Some "read logs: is a directory") /\
  readFileContent sample_fs "logs"
    = ("", Some dir_info, Some "read logs: is a directory").
Proof.
  split; [reflexivity|]. split; [reflexivity|].
  split; [unfold dir_info, maxSize; cbn; lia|].
  split; reflexivity.
Qed.

(** * The claims about the wire *)

(** C3, as the code has it.  The pushed message is an object of [data]
    and [type]; its [data] has the members [path], [op], [line_changes]
    and [file_info], and does not depend on [Content] or [PrevContent];
    [file_info] is [null] exactly for a record without file information. *)
Theorem wire_message_members (marshal_FileInfo : os_FileInfo -> JSON)
    (change : FileChange) (broadcast : list JSON) :
  onFileChange marshal_FileInfo change broadcast
    = broadcast ++ [JObject [ ("data", marshal_FileChange marshal_FileInfo change);
                              ("type", JString "log") ]] /\
  object_keys (marshal_FileChange marshal_FileInfo change)
    = ["path"; "op"; "line_changes"; "file_info"] /\
  (forall content prevContent,
     onFileChange marshal_FileInfo
       {| Path := Path change; Op := Op change;
          Content := content; PrevContent := prevContent;
          LineChanges := LineChanges change; FileInfo := FileInfo change |}
       broadcast
     = onFileChange marshal_FileInfo change broadcast) /\
  (FileInfo change = None ->
     marshal_FileChange marshal_FileInfo change
     = JObject [ ("path", JString (Path change)); ("op", JString (Op change));
                 ("line_changes",
                    match LineChanges change with
                    | None => JNull
                    | Some cs => JArray (marshal_LineChange <$> cs)
                    end);
                 ("file_info", JNull) ]).
Proof.
  split; [reflexivity|]. split; [reflexivity|]. split; [reflexivity|].
  intros Hnil. unfold marshal_FileChange. rewrite Hnil. reflexivity.
Qed.

Lemma wire_message_members_witness :
  marshal_FileChange marshal_fileStat
    {| Path := "app.log"; Op := "removed"; Content := ""; PrevContent := "";
       LineChanges := None; FileInfo := None |}
  = JObject [ ("path", JString "app.log"); ("op", JString "removed");
              ("line_changes", JNull); ("file_info", JNull) ].
Proof.
  apply (proj2 (proj2 (proj2
           (wire_message_members marshal_fileStat
              {| Path := "app.log"; Op := "removed"; Content := "";
                 PrevContent := ""; LineChanges := None; FileInfo := None |}
              [])))).
  reflexivity.
Defined.

(** C3, as stated, fails: the message of a [modified] record has a
    [file_info] member besides [path], [op] and [line_changes]. *)
Lemma wire_file_info_counterexample :
  object_keys (marshal_FileChange marshal_fileStat sample_change)
    = ["path"; "op"; "line_changes"; "file_info"] /\
  object_keys (marshal_FileChange marshal_fileStat sample_change)
    <> ["path"; "op"; "line_changes"] /\
  "file_info" ∈ object_keys (marshal_FileChange (fun _ => JNull) sample_change).
Proof.
  split; [reflexivity|]. split; [discriminate|].
  cbn. do 3 right. left.
Qed.

(** * The claims about inbound messages *)

(** A frame with an unknown [type] is answered by an error, and the read
    loop goes on to the next frame. *)
Lemma unknown_type_rejected json_Unmarshal os_ReadFile watchPath message msg :
  json_Unmarshal message = Ok msg ->
  msg_Type msg <> "get_info" -> msg_Type msg <> "get_file_content" ->
  msg_Type msg <> "ping" ->
  onSocketMessage json_Unmarshal os_ReadFile watchPath message
    = Returns (Err ("未知的消息类型: " +:+ msg_Type msg)) /\
  handleClientRead_step
    (onSocketMessage json_Unmarshal os_ReadFile watchPath) (Ok message)
    = Continue.
Proof.
  intros Hdec H1 H2 H3.
  assert (onSocketMessage json_Unmarshal os_ReadFile watchPath message
          = Returns (Err ("未知的消息类型: " +:+ msg_Type msg))) as Hret.
  { unfold onSocketMessage. rewrite Hdec.
    rewrite !bool_decide_eq_false_2 by assumption. reflexivity. }
  split; [exact Hret|].
  unfold handleClientRead_step. rewrite Hret. reflexivity.
Qed.

(** C1 at a frame that is not JSON: [onSocketMessage] does not return an
    error, it ends the process, and with it the connection. *)
Theorem malformed_message_exits
    (json_Unmarshal : string -> result SocketMessage)
    (os_ReadFile : string -> result string) (watchPath : string)
    (message : string) (err : error) :
  json_Unmarshal message = Err err ->
  onSocketMessage json_Unmarshal os_ReadFile watchPath message = Exits /\
  handleClientRead_step
    (onSocketMessage json_Unmarshal os_ReadFile watchPath) (Ok message)
    = ProcessDown.
Proof.
  intros Hdec.
  assert (onSocketMessage json_Unmarshal os_ReadFile watchPath message
          = Exits) as Hexit.
  { unfold onSocketMessage. rewrite Hdec. reflexivity. }
  split; [exact Hexit|].
  unfold handleClientRead_step. rewrite Hexit. reflexivity.
Qed.

Lemma malformed_message_exits_witness :
  onSocketMessage sample_Unmarshal sample_ReadFile "app.log" "{" = Exits /\
  handleClientRead_step
    (onSocketMessage sample_Unmarshal sample_ReadFile "app.log") (Ok "{")
    = ProcessDown.
Proof.
  apply (malformed_message_exits sample_Unmarshal sample_ReadFile "app.log"
           "{" "unexpected end of JSON input").
  reflexivity.
Defined.

(** * The claims about the hub *)

Lemma HandleWebSocket_ok (p : nat) (s : WebSocketServer) :
  registry_ok s -> registry_ok (HandleWebSocket p s).
Proof.
  intros Hok q Hq. cbn [HandleWebSocket clients heap] in *.
  destruct (decide (q = p)) as [->|Hne].
  - exists {| send := make_chan 256; conn_open := true |}.
    rewrite lookup_insert_eq. repeat split.
  - rewrite lookup_insert_ne by auto. apply Hok.
    apply elem_of_union in Hq as [Hq|Hq]; [|exact Hq].
    apply elem_of_singleton in Hq. contradiction.
Qed.

(** The [select] on an open channel: the send, or the [default]. *)
Lemma dispatch_to_open (message : JSON) (s : WebSocketServer) (p : nat)
    (c : Client) :
  heap s !! p = Some c -> closed (send c) = false ->
  dispatch_to message s p
  = Some (if decide (length (queue (send c)) < capacity (send c))%nat
          then {| clients := clients s;
                  heap := <[p := sent_client message c]> (heap s) |}
          else {| clients := clients s ∖ {[p]};
                  heap := <[p := dropped_client c]> (heap s) |}).
Proof.
  intros Hp Hopen. unfold dispatch_to, try_send. rewrite Hp, Hopen.
  destruct (decide _); reflexivity.
Qed.

Lemma dispatch_cons (message : JSON) (s : WebSocketServer) p order :
  dispatch (p :: order) message s
  = dispatch_to message s p ≫= dispatch order message.
Proof.
  unfold dispatch. cbn [foldl mbind option_bind].
  destruct (dispatch_to message s p) as [s1|]; [reflexivity|].
  induction order as [|q order IH]; [reflexivity | exact IH].
Qed.

(** The whole [range]: clients outside [order] are untouched, a client
    with room has the message queued, a client without is dropped. *)
Lemma dispatch_range (message : JSON) : forall order s,
  NoDup order ->
  (forall p, p ∈ order ->
     exists c, heap s !! p = Some c /\ closed (send c) = false) ->
  exists s', dispatch order message s = Some s' /\
    (forall p, p ∉ order ->
       heap s' !! p = heap s !! p /\ (p ∈ clients s' <-> p ∈ clients s)) /\
    (forall p c, p ∈ order -> heap s !! p = Some c ->
       if decide (length (queue (send c)) < capacity (send c))%nat
       then heap s' !! p = Some (sent_client message c) /\
            (p ∈ clients s' <-> p ∈ clients s)
       else heap s' !! p = Some (dropped_client c) /\ p ∉ clients s').
Proof.
  induction order as [|q order IH]; intros s Hnd Hopen.
  - exists s. split; [reflexivity|]. split.
    + intros p _. split; reflexivity.
    + intros p c Hp. inversion Hp.
  - apply NoDup_cons in Hnd as [Hq Hnd].
    destruct (Hopen q) as (cq & Hcq & Hcq_open); [left|].
    rewrite dispatch_cons, (dispatch_to_open _ _ _ cq Hcq Hcq_open).
    cbn [mbind option_bind].
    set (s1 := if decide (length (queue (send cq)) < capacity (send cq))%nat
               then {| clients := clients s;
                       heap := <[q := sent_client message cq]> (heap s) |}
               else {| clients := clients s ∖ {[q]};
                       heap := <[q := dropped_client cq]> (heap s) |}).
    assert (forall p, p <> q -> heap s1 !! p = heap s !! p) as Hheap.
    { intros p Hne. subst s1. destruct (decide _); cbn [heap];
        rewrite lookup_insert_ne by auto; reflexivity. }
    assert (forall p, p <> q -> p ∈ clients s1 <-> p ∈ clients s) as Hreg.
    { intros p Hne. subst s1. destruct (decide _); cbn [clients];
        [reflexivity | rewrite elem_of_difference, elem_of_singleton; tauto]. }
    destruct (IH s1 Hnd) as (s' & Hrun & Hout & Hin).
    { intros p Hp. rewrite Hheap by (intros ->; contradiction).
      apply Hopen. right. exact Hp. }
    exists s'. split; [exact Hrun|]. split.
    + intros p Hp. apply not_elem_of_cons in Hp as [Hne Hp].
      destruct (Hout p Hp) as [Hh Hc].
      split; [rewrite Hh; apply Hheap; exact Hne|].
      rewrite Hc. apply Hreg. exact Hne.
    + intros p c Hp Hc. apply elem_of_cons in Hp as [->|Hp].
      * rewrite Hcq in Hc. injection Hc as <-.
        destruct (Hout q Hq) as [Hh Hcl]. subst s1.
        destruct (decide _); cbn [heap clients] in Hh, Hcl;
          rewrite lookup_insert_eq in Hh; (split; [exact Hh|]);
        [exact Hcl|].
      rewrite Hcl, elem_of_difference, elem_of_singleton. tauto.
      * assert (p <> q) as Hne by (intros ->; contradiction).
        specialize (Hin p c Hp). rewrite Hheap in Hin by assumption.
        specialize (Hin Hc).
        destruct (decide (length (queue (send c)) < capacity (send c))%nat).
        -- destruct Hin as [Hh Hcl]. split; [exact Hh|].
           rewrite Hcl. apply Hreg. exact Hne.
        -- exact Hin.
Qed.

(** C5. One message of the dispatcher, over a registry of clients made
    by [HandleWebSocket] (capacity 256, channel open), in any order of
    the [range]: the dispatch completes, each [select] either sending or
    taking its [default]; a client with fewer than 256 queued messages
    stays registered and has the message at the end of its queue; a
    client with a full queue is out of the registry, its channel closed
    and its connection closed. *)
Theorem dispatch_backpressure (s : WebSocketServer) (order : list nat)
    (message : JSON) :
  registry_ok s -> range_order s order ->
  exists s', dispatch order message s = Some s' /\
    registry_ok s' /\
    forall p client, p ∈ clients s -> heap s !! p = Some client ->
      ((length (queue (send client)) < 256)%nat ->
         p ∈ clients s' /\
         heap s' !! p
         = Some {| send := {| queue := queue (send client) ++ [message];
                              capacity := 256; closed := false |};
                   conn_open := conn_open client |}) /\
      ((256 <= length (queue (send client)))%nat ->
         (p ∉ clients s') /\
         heap s' !! p
         = Some {| send := {| queue := queue (send client);
                              capacity := 256; closed := true |};
                   conn_open := false |}).
Proof.
  intros Hok [Hnd Hmem].
  destruct (dispatch_range message order s Hnd) as (s' & Hrun & Hout & Hin).
  { intros p Hp. destruct (Hok p) as (c & Hc & Hopen & _);
      [apply Hmem; exact Hp | eauto]. }
  exists s'. split; [exact Hrun|]. split.
  - intros p Hp. destruct (decide (p ∈ order)) as [Hord|Hord].
    + destruct (Hok p) as (c & Hc & Hopen & Hcap); [apply Hmem; exact Hord|].
      specialize (Hin p c Hord Hc). destruct (decide _).
      * destruct Hin as [Hh _]. exists (sent_client message c).
        split; [exact Hh|]. split; [reflexivity | exact Hcap].
      * destruct Hin as [_ Hgone]. contradiction.
    + destruct (Hout p Hord) as [_ Hc]. exfalso. apply Hord, Hmem, Hc, Hp.
  - intros p client Hp Hc.
    destruct (Hok p Hp) as (c & Hc' & Hopen & Hcap).
    rewrite Hc in Hc'. injection Hc' as <-.
    assert (p ∈ order) as Hord by (apply Hmem; exact Hp).
    specialize (Hin p client Hord Hc). rewrite Hcap in Hin.
    destruct (decide _) as [Hroom|Hfull].
    + destruct Hin as [Hh Hreg]. split; [|intros; lia].
      intros _. split; [apply Hreg; exact Hp|].
      rewrite Hh. unfold sent_client. rewrite Hcap. reflexivity.
    + destruct Hin as [Hh Hgone]. split; [intros; lia|].
      intros _. split; [exact Hgone|].
      rewrite Hh. unfold dropped_client, close_chan. rewrite Hcap. reflexivity.
Qed.

Lemma sample_hub_ok : registry_ok sample_hub.
Proof.
  intros p Hp. cbn [sample_hub clients heap] in *.
  apply elem_of_union in Hp as [Hp|Hp]; apply elem_of_singleton in Hp as ->.
  - exists idle_client. repeat split.
  - exists slow_client. repeat split.
Defined.

Lemma sample_hub_order : range_order sample_hub [1%nat; 2%nat].
Proof.
  split.
  - apply NoDup_cons. split; [|apply NoDup_singleton].
    intros H. apply list_elem_of_singleton in H. discriminate H.
  - intros p. cbn [sample_hub clients].
    rewrite !elem_of_cons, elem_of_nil, elem_of_union, !elem_of_singleton.
    tauto.
Defined.

Lemma dispatch_backpressure_witness :
  exists s', dispatch [1%nat; 2%nat] (JString "m") sample_hub = Some s' /\
    registry_ok s' /\
    forall p client, p ∈ clients sample_hub ->
      heap sample_hub !! p = Some client ->
      ((length (queue (send client)) < 256)%nat ->
         p ∈ clients s' /\
         heap s' !! p
         = Some {| send := {| queue := queue (send client) ++ [JString "m"];
                              capacity := 256; closed := false |};
                   conn_open := conn_open client |}) /\
      ((256 <= length (queue (send client)))%nat ->
         (p ∉ clients s') /\
         heap s' !! p
         = Some {| send := {| queue := queue (send client);
                              capacity := 256; closed := true |};
                   conn_open := false |}).
Proof.
  exact (dispatch_backpressure sample_hub [1%nat; 2%nat] (JString "m")
           sample_hub_ok sample_hub_order).
Defined.

(** * More about [compareLines] *)

(** ** Identical texts *)

Lemma backtrack_same (lines : list string) (dp : Table) : forall i fuel acc,
  (i <= length lines)%nat -> (i <= fuel)%nat ->
  backtrack fuel lines lines dp i i acc = Some acc.
Proof.
  induction i as [|i IH]; intros fuel acc Hi Hf.
  - destruct fuel; reflexivity.
  - destruct fuel as [|fuel]; [lia|]. cbn [backtrack].
    destruct (decide (0 < S i ∨ 0 < S i)%nat) as [_|H]; [|exfalso; lia].
    destruct (decide _) as [_|H].
    + replace (S i - 1)%nat with i by lia. apply IH; lia.
    + exfalso. apply H. repeat split; lia.
Qed.

Lemma diff_lines_same (lines : list string) : diff_lines lines lines = [].
Proof.
  unfold diff_lines, compare_loop. rewrite backtrack_same by lia. reflexivity.
Qed.

(** X1. A text compared with itself has no changes. *)
Theorem compareLines_same :
  (forall lines : list string, diff_lines lines lines = []) /\
  (forall content : string, compareLines content content = []).
Proof.
  split; [exact diff_lines_same|]. intros content. apply diff_lines_same.
Qed.

(** ** The entries of a result *)

Lemma strict_snoc_bound (l : list Z) (b : nat) :
  Forall (fun z => 1 <= z <= Z.of_nat b) l -> StronglySorted Z.lt l ->
  StronglySorted Z.lt (l ++ [Z.of_nat (S b)]).
Proof.
  intros Hb Hs. apply StronglySorted_app_2; [|exact Hs|repeat constructor].
  intros x1 x2 H1 H2. apply list_elem_of_singleton in H2 as ->.
  rewrite Forall_forall in Hb. specialize (Hb _ H1). lia.
Qed.

Section WalkEntries.
Variables oldLines newLines : list string.

Lemma walk_strict i j cs :
  walk oldLines newLines i j cs ->
  StronglySorted Z.lt (removed_lines cs) /\
  StronglySorted Z.lt (added_lines cs).
Proof.
  induction 1 as [|i j t cs Ho Hn Hw [IHr IHa]
                  |i j t cs Hn Hw [IHr IHa]|i j t cs Ho Hw [IHr IHa]].
  - split; constructor.
  - split; assumption.
  - rewrite removed_lines_snoc_added, added_lines_snoc_added.
    split; [assumption|].
    apply strict_snoc_bound; [|assumption].
    apply (walk_bounds _ _ _ _ _ Hw).
  - rewrite removed_lines_snoc_removed, added_lines_snoc_removed.
    split; [|assumption].
    apply strict_snoc_bound; [|assumption].
    apply (walk_bounds _ _ _ _ _ Hw).
Qed.

Lemma walk_entries i j cs :
  walk oldLines newLines i j cs -> Forall (entry_of oldLines newLines) cs.
Proof.
  induction 1 as [|i j t cs Ho Hn Hw IH|i j t cs Hn Hw IH|i j t cs Ho Hw IH].
  - constructor.
  - exact IH.
  - apply Forall_app. split; [exact IH|]. apply Forall_singleton.
    left. exists j, t. split; [exact Hn | reflexivity].
  - apply Forall_app. split; [exact IH|]. apply Forall_singleton.
    right. exists i, t. split; [exact Ho | reflexivity].
Qed.
End WalkEntries.

(** X2. Every entry of a result is the addition of an actual line of the
    new text, carrying its 1-based position and its text, or the removal
    of an actual line of the old text, carrying its position and text;
    no line of either text is reported twice (the positions strictly
    increase). *)
Theorem compareLines_entries (oldLines newLines : list string) :
  Forall (entry_of oldLines newLines) (diff_lines oldLines newLines) /\
  StronglySorted Z.lt (removed_lines (diff_lines oldLines newLines)) /\
  StronglySorted Z.lt (added_lines (diff_lines oldLines newLines)).
Proof.
  destruct (compare_loop_terminates oldLines newLines) as [_ Hw].
  split; [exact (walk_entries _ _ _ _ _ Hw)|].
  exact (walk_strict _ _ _ _ _ Hw).
Qed.

(** ** The table holds the length of a longest common subsequence *)

Lemma max_ge_l a b : a <= max a b.
Proof. unfold max. destruct (Z.gtb_spec a b); lia. Qed.

Lemma max_ge_r a b : b <= max a b.
Proof. unfold max. destruct (Z.gtb_spec a b); lia. Qed.

Lemma max_cases a b : max a b = a \/ max a b = b.
Proof. unfold max. destruct (a >? b); auto. Qed.

Lemma sublist_snoc_inv (c l : list string) (x : string) :
  c `sublist_of` l ++ [x] ->
  c `sublist_of` l \/ exists c', c = c' ++ [x] /\ c' `sublist_of` l.
Proof.
  intros H. apply sublist_app_r in H as (c1 & c2 & -> & H1 & H2).
  apply sublist_cons_r in H2 as [H2|(c2' & -> & H2)].
  - apply sublist_nil_r in H2 as ->. left. rewrite app_nil_r. exact H1.
  - apply sublist_nil_r in H2 as ->. right. exists c1. split; [reflexivity|exact H1].
Qed.

Section LongestCommon.
Variables oldLines newLines : list string.
Local Abbreviation L := (lcs oldLines newLines).
Local Abbreviation common := (common_subseq oldLines newLines).

Lemma lcs_succ i j :
  L (S i) (S j)
  = if decide (line_at oldLines i = line_at newLines j) then L i j + 1
    else max (L i (S j)) (L (S i) j).
Proof. reflexivity. Qed.

(** No common subsequence is longer than the cell. *)
Lemma lcs_upper : forall i j c,
  (i <= length oldLines)%nat -> (j <= length newLines)%nat ->
  common i j c -> Z.of_nat (length c) <= L i j.
Proof.
  induction i as [|i IHi].
  { intros j c _ _ [Hc _]. rewrite take_0 in Hc.
    apply sublist_nil_r in Hc as ->. cbn. lia. }
  induction j as [|j IHj]; intros c Hi Hj [Ho Hn].
  { rewrite take_0 in Hn. apply sublist_nil_r in Hn as ->.
    rewrite lcs_col0. cbn. lia. }
  rewrite lcs_succ.
  rewrite take_S_line in Ho, Hn by lia.
  destruct (decide _) as [Heq|Hne].
  - destruct c as [|z c _] using rev_ind; [cbn; pose proof (lcs_nonneg oldLines newLines i j); lia|].
    assert (common i j c) as Hc.
    { split.
      - apply sublist_snoc_inv in Ho as [Ho|(c' & Hc' & Ho)].
        + etrans; [|exact Ho]. apply sublist_inserts_r. reflexivity.
        + apply app_inj_tail in Hc' as [-> _]. exact Ho.
      - apply sublist_snoc_inv in Hn as [Hn|(c' & Hc' & Hn)].
        + etrans; [|exact Hn]. apply sublist_inserts_r. reflexivity.
        + apply app_inj_tail in Hc' as [-> _]. exact Hn. }
    specialize (IHi j c ltac:(lia) ltac:(lia) Hc).
    rewrite length_app. cbn [length]. lia.
  - apply sublist_snoc_inv in Ho as [Ho|(c1 & Hc1 & Ho)].
    + assert (common i (S j) c) as Hc.
      { split; [exact Ho|]. rewrite take_S_line by lia. exact Hn. }
      specialize (IHi (S j) c ltac:(lia) ltac:(lia) Hc).
      pose proof (max_ge_l (L i (S j)) (L (S i) j)). lia.
    + apply sublist_snoc_inv in Hn as [Hn|(c2 & Hc2 & Hn)].
      * assert (common (S i) j c) as Hc.
        { split; [|exact Hn]. rewrite take_S_line by lia.
          rewrite Hc1. apply sublist_app; [exact Ho | reflexivity]. }
        specialize (IHj c ltac:(lia) ltac:(lia) Hc).
        pose proof (max_ge_r (L i (S j)) (L (S i) j)). lia.
      * exfalso. apply Hne. rewrite Hc1 in Hc2.
        apply app_inj_tail in Hc2 as [_ Hx]. exact Hx.
Qed.

(** Some common subsequence is as long as the cell. *)
Lemma lcs_attained : forall i j,
  (i <= length oldLines)%nat -> (j <= length newLines)%nat ->
  exists c, common i j c /\ Z.of_nat (length c) = L i j.
Proof.
  induction i as [|i IHi].
  { intros j _ _. exists []. split; [split; apply sublist_nil_l | reflexivity]. }
  induction j as [|j IHj]; intros Hi Hj.
  { exists []. split; [split; apply sublist_nil_l|]. rewrite lcs_col0. reflexivity. }
  rewrite lcs_succ. destruct (decide _) as [Heq|Hne].
  - destruct (IHi j) as (c & [Ho Hn] & Hlen); [lia..|].
    exists (c ++ [line_at oldLines i]). split.
    + split; rewrite take_S_line by lia.
      * apply sublist_app; [exact Ho | reflexivity].
      * rewrite Heq. apply sublist_app; [exact Hn | reflexivity].
    + rewrite length_app. cbn [length]. lia.
  - destruct (max_cases (L i (S j)) (L (S i) j)) as [-> | ->].
    + destruct (IHi (S j)) as (c & [Ho Hn] & Hlen); [lia..|].
      exists c. split; [|exact Hlen]. split; [|exact Hn].
      rewrite take_S_line by lia. apply sublist_inserts_r. exact Ho.
    + destruct IHj as (c & [Ho Hn] & Hlen); [lia..|].
      exists c. split; [|exact Hlen]. split; [exact Ho|].
      rewrite take_S_line by lia. apply sublist_inserts_r. exact Hn.
Qed.
End LongestCommon.

(** X3. After the two filling loops, the cell [(i, j)] of the table is
    the length of a longest common subsequence of the first [i] old
    lines and the first [j] new lines. *)
Theorem fill_table_longest (oldLines newLines : list string) (i j : nat) :
  (i <= length oldLines)%nat -> (j <= length newLines)%nat ->
  (exists c, common_subseq oldLines newLines i j c /\
     Z.of_nat (length c) = dp_at (fill_table oldLines newLines) i j) /\
  (forall c, common_subseq oldLines newLines i j c ->
     Z.of_nat (length c) <= dp_at (fill_table oldLines newLines) i j).
Proof.
  intros Hi Hj. rewrite fill_table_lcs by assumption. split.
  - apply lcs_attained; assumption.
  - intros c Hc. apply lcs_upper; assumption.
Qed.

Lemma fill_table_longest_witness :
  (exists c, common_subseq ["a"; "b"; "c"] ["a"; "x"; "c"] 3 3 c /\
     Z.of_nat (length c) = dp_at (fill_table ["a"; "b"; "c"] ["a"; "x"; "c"]) 3 3) /\
  (forall c, common_subseq ["a"; "b"; "c"] ["a"; "x"; "c"] 3 3 c ->
     Z.of_nat (length c) <= dp_at (fill_table ["a"; "b"; "c"] ["a"; "x"; "c"]) 3 3).
Proof.
  apply (fill_table_longest ["a"; "b"; "c"] ["a"; "x"; "c"] 3 3);
    cbn [length]; lia.
Defined.

(** ** The result is as short as an edit script can be *)

Section Shortest.
Variables oldLines newLines : list string.
Local Abbreviation L := (lcs oldLines newLines).

(** From [(i, j)] the walk over the filled table prepends
    [i + j - 2 * dp[i][j]] entries. *)
Lemma backtrack_length : forall fuel i j acc,
  (i <= length oldLines)%nat -> (j <= length newLines)%nat ->
  (i + j <= fuel)%nat ->
  exists cs,
    backtrack fuel oldLines newLines (fill_table oldLines newLines) i j acc
      = Some (cs ++ acc) /\
    Z.of_nat (length cs) = Z.of_nat i + Z.of_nat j - 2 * L i j.
Proof.
  induction fuel as [|fuel IH]; intros i j acc Hi Hj Hf.
  - assert (i = 0 /\ j = 0)%nat as [-> ->] by lia.
    exists []. split; reflexivity.
  - cbn [backtrack].
    destruct (decide (0 < i ∨ 0 < j)%nat) as [Hpos|Hzero].
    2:{ assert (i = 0 /\ j = 0)%nat as [-> ->] by lia.
        exists []. split; reflexivity. }
    destruct (decide _) as [(Hi0 & Hj0 & Heq)|Hne].
    { destruct i as [|i]; [lia|]. destruct j as [|j]; [lia|].
      replace (S i - 1)%nat with i in * by lia.
      replace (S j - 1)%nat with j in * by lia.
      destruct (IH i j acc) as (cs & Hb & Hlen); [lia..|].
      exists cs. split; [exact Hb|].
      rewrite lcs_succ, decide_True by exact Heq. lia. }
    destruct (decide _) as [(Hj0 & Hc)|Hnadd].
    { destruct j as [|j]; [lia|].
      replace (S j - 1)%nat with j in * by lia.
      destruct (IH i j (added_change (S j) (line_at newLines j) :: acc))
        as (cs & Hb & Hlen); [lia..|].
      exists (cs ++ [added_change (S j) (line_at newLines j)]).
      split; [rewrite Hb, <- app_assoc; reflexivity|].
      rewrite length_app. cbn [length].
      destruct i as [|i]; [cbn [lcs] in *; lia|].
      replace (S i - 1)%nat with i in * by lia.
      destruct Hc as [Hc|Hc]; [discriminate Hc|].
      rewrite !fill_table_lcs in Hc by lia.
      rewrite lcs_succ, decide_False.
      2:{ intros Heq. apply Hne. repeat split; [lia..|exact Heq]. }
      unfold max. destruct (Z.gtb_spec (L i (S j)) (L (S i) j)); lia. }
    destruct (decide _) as [(Hi0 & Hc)|Hndel].
    { destruct i as [|i]; [lia|].
      replace (S i - 1)%nat with i in * by lia.
      destruct (IH i j (removed_change (S i) (line_at oldLines i) :: acc))
        as (cs & Hb & Hlen); [lia..|].
      exists (cs ++ [removed_change (S i) (line_at oldLines i)]).
      split; [rewrite Hb, <- app_assoc; reflexivity|].
      rewrite length_app. cbn [length].
      destruct j as [|j]; [rewrite !lcs_col0 in *; lia|].
      replace (S j - 1)%nat with j in * by lia.
      destruct Hc as [Hc|Hc]; [discriminate Hc|].
      rewrite !fill_table_lcs in Hc by lia.
      rewrite lcs_succ, decide_False.
      2:{ intros Heq. apply Hne. repeat split; [lia..|exact Heq]. }
      unfold max. destruct (Z.gtb_spec (L i (S j)) (L (S i) j)); lia. }
    exfalso.
    destruct (decide (j = 0%nat)) as [->|Hj0].
    + apply Hndel. split; [lia|]. left. reflexivity.
    + destruct (decide (i = 0%nat)) as [->|Hi0].
      * apply Hnadd. split; [lia|]. left. reflexivity.
      * destruct (Z_lt_ge_dec
                    (dp_at (fill_table oldLines newLines) i (j - 1))
                    (dp_at (fill_table oldLines newLines) (i - 1) j)).
        -- apply Hndel. split; [lia|]. right. assumption.
        -- apply Hnadd. split; [lia|]. right. assumption.
Qed.

Lemma diff_lines_length :
  Z.of_nat (length (diff_lines oldLines newLines))
  = Z.of_nat (length oldLines) + Z.of_nat (length newLines)
    - 2 * L (length oldLines) (length newLines).
Proof.
  unfold diff_lines, compare_loop.
  destruct (backtrack_length (length oldLines + length newLines)
              (length oldLines) (length newLines) [])
    as (cs & Hb & Hlen); [lia..|].
  rewrite Hb, app_nil_r. exact Hlen.
Qed.
End Shortest.

(** X4. The result has [m + n - 2 * dp[m][n]] entries: all the lines of
    both texts except a longest common subsequence, counted on each
    side.  No common subsequence of the two texts leaves fewer entries,
    and one leaves exactly as many. *)
Theorem compareLines_shortest (oldLines newLines : list string) :
  Z.of_nat (length (diff_lines oldLines newLines))
  = Z.of_nat (length oldLines) + Z.of_nat (length newLines)
    - 2 * dp_at (fill_table oldLines newLines)
                (length oldLines) (length newLines) /\
  (forall c, c `sublist_of` oldLines -> c `sublist_of` newLines ->
     Z.of_nat (length (diff_lines oldLines newLines))
     <= Z.of_nat (length oldLines) + Z.of_nat (length newLines)
        - 2 * Z.of_nat (length c)) /\
  (exists c, c `sublist_of` oldLines /\ c `sublist_of` newLines /\
     Z.of_nat (length (diff_lines oldLines newLines))
     = Z.of_nat (length oldLines) + Z.of_nat (length newLines)
       - 2 * Z.of_nat (length c)).
Proof.
  rewrite fill_table_lcs, diff_lines_length by lia. split; [reflexivity|].
  split.
  - intros c Ho Hn.
    pose proof (lcs_upper oldLines newLines (length oldLines)
                  (length newLines) c) as Hup.
    unfold common_subseq in Hup. rewrite !take_ge in Hup by lia.
    specialize (Hup ltac:(lia) ltac:(lia) (conj Ho Hn)). lia.
  - destruct (lcs_attained oldLines newLines (length oldLines)
                (length newLines)) as (c & [Ho Hn] & Hlen); [lia..|].
    rewrite !take_ge in Ho, Hn by lia.
    exists c. split; [exact Ho|]. split; [exact Hn|]. lia.
Qed.

(** * More about the watcher *)

(** X5. The line-by-line loop of the method [readFileContent] ends within
    one iteration more than the file has bytes and leaves in the buffer
    exactly the bytes read, whether or not the last line ends in a
    newline.  So the method and the function [readFileContent] return
    the same content and the same error for every file; they differ at
    most in the [FileInfo] returned beside a read error. *)
Theorem readFileContent_whole (fs : FS) (filePath : string) :
  (forall (content : string) (fin : option error),
     read_lines (S (String.length content)) content fin ""
     = Some (match fin with None => Ok content | Some e => Err e end)) /\
  (FileWatcher_readFileContent fs filePath).1.1
    = (readFileContent fs filePath).1.1 /\
  (FileWatcher_readFileContent fs filePath).2
    = (readFileContent fs filePath).2 /\
  ((FileWatcher_readFileContent fs filePath).2 = None ->
   FileWatcher_readFileContent fs filePath = readFileContent fs filePath).
Proof.
  split.
  { intros content fin. rewrite read_lines_all by lia. reflexivity. }
  unfold FileWatcher_readFileContent, readFileContent.
  destruct (fs filePath) as [file|e]; [|repeat split].
  destruct (stat file) as [fileInfo|e]; [|repeat split].
  rewrite read_buffered_ReadAll.
  destruct (fi_Size fileInfo >? maxSize); [repeat split|].
  destruct (ReadAll file) as [content|e]; cbn; repeat split.
  discriminate.
Qed.

Lemma readFileContent_whole_witness :
  FileWatcher_readFileContent next_fs "app.log"
  = readFileContent next_fs "app.log".
Proof.
  apply (proj2 (proj2 (proj2 (readFileContent_whole next_fs "app.log")))).
  reflexivity.
Defined.

(** ** Starting the single-file watcher *)

(** X6. [WatchFile] on a readable file that the notifier accepts returns
    no error, has the path watched and the cache seeded with the content
    read; the first accepted write to the path is then diffed against
    that content and not against the empty text. *)
Theorem WatchFile_seeds_cache {St : Type} (fs fs' : FS)
    (refuse : string -> option error) (fw : FileWatcher) (w : Notifier)
    (event : Event) (f : FileChange -> St -> St) (st : St)
    (initial : string) (info : option os_FileInfo)
    (newContent : string) (info' : option os_FileInfo) :
  FileWatcher_readFileContent fs (Name event) = (initial, info, None) ->
  refuse (Name event) = None ->
  Has event Write = true ->
  FileWatcher_readFileContent fs' (Name event) = (newContent, info', None) ->
  let started := WatchFile fs refuse fw w (Name event) in
  started.2 = None /\
  Name event ∈ watching started.1.2 /\
  fileCache started.1.1 !! Name event = Some initial /\
  (WatchFile_event fs' started.1.1 event (Some f) st).2
  = f {| Path := Name event; Op := "modified";
         Content := newContent; PrevContent := initial;
         LineChanges := Some (compareLines initial newContent);
         FileInfo := info' |} st.
Proof.
  intros Hread Hadd Hw Hread'. cbv zeta.
  unfold WatchFile, Add. rewrite Hread, Hadd. cbn [fst snd watching fileCache].
  split; [reflexivity|].
  split; [apply elem_of_union; left; apply elem_of_singleton; reflexivity|].
  split; [apply lookup_insert_eq|].
  unfold WatchFile_event, handleFileChange. rewrite Hw, Hread'.
  unfold cache_get. cbn [fileCache snd]. rewrite lookup_insert_eq.
  reflexivity.
Qed.

Lemma WatchFile_seeds_cache_witness :
  let started :=
    WatchFile sample_fs no_refusal {| fileCache := ∅ |} {| watching := ∅ |}
      (Name write_event) in
  started.2 = None /\
  Name write_event ∈ watching started.1.2 /\
  fileCache started.1.1 !! Name write_event = Some "hello" /\
  (WatchFile_event next_fs started.1.1 write_event (Some record_change) []).2
  = record_change
      {| Path := Name write_event; Op := "modified";
         Content := data next_file; PrevContent := "hello";
         LineChanges := Some (compareLines "hello" (data next_file));
         FileInfo := Some next_info |} [].
Proof.
  apply (WatchFile_seeds_cache sample_fs next_fs no_refusal
           {| fileCache := ∅ |} {| watching := ∅ |} write_event
           record_change [] "hello" (Some sample_info)
           (data next_file) (Some next_info)); reflexivity.
Defined.

(** X7. [WatchFile] fails in two ways.  When the first read fails it
    returns that error and changes neither the cache nor the notifier.
    When the notifier refuses the path it returns an error that wraps
    the refusal, the path is not watched, and the cache keeps the
    content it was seeded with. *)
Theorem WatchFile_failure (fs : FS) (refuse : string -> option error)
    (fw : FileWatcher) (w : Notifier) (filePath : string) :
  (forall err,
     (FileWatcher_readFileContent fs filePath).2 = Some err ->
     WatchFile fs refuse fw w filePath = (fw, w, Some err)) /\
  (forall content info err,
     FileWatcher_readFileContent fs filePath = (content, info, None) ->
     refuse filePath = Some err ->
     WatchFile fs refuse fw w filePath
     = ({| fileCache := <[filePath := content]> (fileCache fw) |}, w,
        Some ("添加文件监听失败: " +:+ err))) /\
  ((WatchFile fs refuse fw w filePath).2 = None <->
   (FileWatcher_readFileContent fs filePath).2 = None /\
   refuse filePath = None).
Proof.
  unfold WatchFile, Add. split; [|split].
  - intros err Herr.
    destruct (FileWatcher_readFileContent fs filePath) as [[c i] e].
    cbn in Herr. rewrite Herr. reflexivity.
  - intros content info err Hread Hrefuse. rewrite Hread, Hrefuse.
    reflexivity.
  - destruct (FileWatcher_readFileContent fs filePath) as [[c i] [e|]];
      cbn [snd].
    + split; [discriminate | intros [H _]; discriminate H].
    + destruct (refuse filePath) as [e|]; cbn [snd].
      * split; [discriminate | intros [_ H]; discriminate H].
      * split; [auto | reflexivity].
Qed.

Lemma WatchFile_failure_witness :
  WatchFile sample_fs no_refusal {| fileCache := ∅ |} {| watching := ∅ |}
    "logs"
  = ({| fileCache := ∅ |}, {| watching := ∅ |},
     Some "read logs: is a directory").
Proof.
  apply (proj1 (WatchFile_failure sample_fs no_refusal {| fileCache := ∅ |}
                  {| watching := ∅ |} "logs")).
  reflexivity.
Defined.

(** ** The loop of the single-file watcher *)

Lemma handleFileChange_record (fs : FS) (fw : FileWatcher)
    (filePath : string) (seen : list FileChange) :
  match FileWatcher_readFileContent fs filePath with
  | (_, _, Some _) =>
      handleFileChange fs fw filePath (Some record_change) seen = (fw, seen)
  | (newContent, fileInfo, None) =>
      handleFileChange fs fw filePath (Some record_change) seen
      = ({| fileCache := <[filePath := newContent]> (fileCache fw) |},
         seen ++ [ {| Path := filePath; Op := "modified";
                      Content := newContent;
                      PrevContent := cache_get fw filePath;
                      LineChanges :=
                        Some (compareLines (cache_get fw filePath) newContent);
                      FileInfo := fileInfo |} ])
  end.
Proof.
  unfold handleFileChange.
  destruct (FileWatcher_readFileContent fs filePath) as [[c i] [e|]];
    reflexivity.
Qed.

Lemma WatchFile_loop_cons {St : Type} (step : FS * Event)
    (steps : list (FS * Event)) (fw : FileWatcher) (callback : Callback)
    (st : St) :
  WatchFile_loop (step :: steps) fw callback st
  = WatchFile_loop steps
      (WatchFile_event step.1 fw step.2 callback st).1 callback
      (WatchFile_event step.1 fw step.2 callback st).2.
Proof.
  unfold WatchFile_loop. cbn [foldl fst snd].
  destruct (WatchFile_event step.1 fw step.2 callback st). reflexivity.
Qed.

Lemma WatchFile_loop_records : forall (steps : list (FS * Event))
    (fw : FileWatcher) (seen : list FileChange),
  exists records,
    WatchFile_loop steps fw (Some record_change) seen
      = ({| fileCache := replay (fileCache fw) records |}, seen ++ records) /\
    chained (fileCache fw) records /\
    Path <$> records
    = (fun step => Name step.2)
        <$> filter (fun step => accepted step = true) steps.
Proof.
  induction steps as [|[fs event] steps IH]; intros fw seen.
  - exists []. destruct fw. rewrite app_nil_r. repeat split.
  - rewrite WatchFile_loop_cons. cbn [fst snd].
    unfold WatchFile_event.
    destruct (Has event Write) eqn:Hw.
    2:{ destruct (IH fw seen) as (records & Hrun & Hch & Hpaths).
        exists records. rewrite filter_cons_False.
        - repeat split; assumption.
        - unfold accepted. cbn [fst snd]. rewrite Hw. discriminate. }
    pose proof (handleFileChange_record fs fw (Name event) seen) as Hrec.
    destruct (FileWatcher_readFileContent fs (Name event))
      as [[c i] [e|]] eqn:Hread; rewrite Hrec; cbn [fst snd].
    + destruct (IH fw seen) as (records & Hrun & Hch & Hpaths).
      exists records. rewrite filter_cons_False.
      * repeat split; assumption.
      * unfold accepted. cbn [fst snd]. rewrite Hw, Hread. discriminate.
    + set (r := {| Path := Name event; Op := "modified"; Content := c;
                   PrevContent := cache_get fw (Name event);
                   LineChanges :=
                     Some (compareLines (cache_get fw (Name event)) c);
                   FileInfo := i |}).
      destruct (IH {| fileCache := <[Name event := c]> (fileCache fw) |}
                  (seen ++ [r])) as (records & Hrun & Hch & Hpaths).
      exists (r :: records). rewrite filter_cons_True.
      2:{ unfold accepted. cbn [fst snd]. rewrite Hw, Hread. reflexivity. }
      rewrite Hrun, <- app_assoc. cbn [fileCache]. split; [reflexivity|].
      split.
      * cbn [chained]. repeat split. exact Hch.
      * rewrite !fmap_cons, Hpaths. reflexivity.
Qed.

(** X8. The loop of [WatchFile] emits one record per write event whose
    read succeeds, in the order of the events, and none for any other
    event.  Each record is a [modified] record whose previous content is
    what the cache held for its path (the content of the previous record
    for that path, or the seed) and whose line changes are the diff
    against it; at the end the cache holds the content of the last
    record of every path. *)
Theorem WatchFile_loop_chain (steps : list (FS * Event)) (fw : FileWatcher) :
  let out := WatchFile_loop steps fw (Some record_change) [] in
  chained (fileCache fw) out.2 /\
  fileCache out.1 = replay (fileCache fw) out.2 /\
  Path <$> out.2
  = (fun step => Name step.2)
      <$> filter (fun step => accepted step = true) steps.
Proof.
  cbv zeta.
  destruct (WatchFile_loop_records steps fw []) as (records & -> & Hch & Hp).
  cbn [fst snd app fileCache]. repeat split; assumption.
Qed.

(** X9. A write that leaves the content as the cache has it is still
    reported: the callback gets a [modified] record with an empty, non-nil
    list of line changes, and the watcher is unchanged. *)
Theorem unchanged_write_reported {St : Type} (fs : FS) (fw : FileWatcher)
    (filePath : string) (f : FileChange -> St -> St) (st : St)
    (content : string) (info : option os_FileInfo) :
  fileCache fw !! filePath = Some content ->
  FileWatcher_readFileContent fs filePath = (content, info, None) ->
  handleFileChange fs fw filePath (Some f) st
  = (fw, f {| Path := filePath; Op := "modified"; Content := content;
              PrevContent := content; LineChanges := Some [];
              FileInfo := info |} st).
Proof.
  intros Hcache Hread. unfold handleFileChange, cache_get.
  rewrite Hread, Hcache. cbn [from_option]. unfold id, compareLines.
  rewrite diff_lines_same, insert_id by exact Hcache.
  destruct fw. reflexivity.
Qed.

Lemma unchanged_write_reported_witness :
  handleFileChange sample_fs {| fileCache := {["app.log" := "hello"]} |}
    "app.log" (Some record_change) []
  = ({| fileCache := {["app.log" := "hello"]} |},
     record_change
       {| Path := "app.log"; Op := "modified"; Content := "hello";
          PrevContent := "hello"; LineChanges := Some [];
          FileInfo := Some sample_info |} []).
Proof.
  apply (unchanged_write_reported sample_fs
           {| fileCache := {["app.log" := "hello"]} |} "app.log"
           record_change [] "hello" (Some sample_info)); reflexivity.
Defined.

(** ** The directory watcher *)

(** X10. One event of [WatchDirectory] gives at most one record.  The
    record names the event's path, its operation is [modified],
    [created], [removed] or [renamed] (the first of write, create,
    remove, rename that the event has), and it never carries a previous
    content or line changes.  An event with neither the write nor the
    create bit but with the remove or the rename bit is reported without
    the file being opened: the record is the same on every file system
    and has neither content nor file information. *)
Theorem WatchDirectory_event_record (fs : FS) (event : Event)
    (seen : list FileChange) :
  (WatchDirectory_event fs event (Some record_change) seen = seen \/
   exists r,
     WatchDirectory_event fs event (Some record_change) seen = seen ++ [r] /\
     Path r = Name event /\
     event_op event = Some (Op r) /\
     Op r ∈ ["modified"; "created"; "removed"; "renamed"] /\
     PrevContent r = "" /\ LineChanges r = None) /\
  (Has event Write = false -> Has event Create = false ->
   Has event Remove = true \/ Has event Rename = true ->
   WatchDirectory_event fs event (Some record_change) seen
   = seen ++ [ {| Path := Name event;
                  Op := if Has event Remove then "removed" else "renamed";
                  Content := ""; PrevContent := ""; LineChanges := None;
                  FileInfo := None |} ]).
Proof.
  split.
  - unfold WatchDirectory_event, event_op.
    destruct (Has event Write).
    { rewrite bool_decide_eq_false_2 by (intros [H|H]; discriminate H).
      destruct (readFileContent fs (Name event)) as [[c i] [e|]];
        [left; reflexivity|].
      right. eexists. split; [reflexivity|]. cbn. repeat split.
      rewrite !elem_of_cons. auto 6. }
    destruct (Has event Create).
    { rewrite bool_decide_eq_false_2 by (intros [H|H]; discriminate H).
      destruct (readFileContent fs (Name event)) as [[c i] [e|]];
        [left; reflexivity|].
      right. eexists. split; [reflexivity|]. cbn. repeat split.
      rewrite !elem_of_cons. auto 6. }
    destruct (Has event Remove).
    { rewrite bool_decide_eq_true_2 by (left; reflexivity).
      right. eexists. split; [reflexivity|]. cbn. repeat split.
      rewrite !elem_of_cons. auto 6. }
    destruct (Has event Rename).
    { rewrite bool_decide_eq_true_2 by (right; reflexivity).
      right. eexists. split; [reflexivity|]. cbn. repeat split.
      rewrite !elem_of_cons. auto 6. }
    left. reflexivity.
  - intros Hw Hc Hrr. unfold WatchDirectory_event, event_op.
    rewrite Hw, Hc. destruct (Has event Remove).
    + rewrite bool_decide_eq_true_2 by (left; reflexivity). reflexivity.
    + destruct Hrr as [Hr|Hr]; [discriminate Hr|]. rewrite Hr.
      rewrite bool_decide_eq_true_2 by (right; reflexivity). reflexivity.
Qed.

Lemma WatchDirectory_event_record_witness :
  WatchDirectory_event sample_fs {| Name := "app.log"; ev_Op := Remove |}
    (Some record_change) []
  = [ {| Path := "app.log"; Op := "removed"; Content := "";
         PrevContent := ""; LineChanges := None; FileInfo := None |} ].
Proof.
  apply (proj2 (WatchDirectory_event_record sample_fs
                  {| Name := "app.log"; ev_Op := Remove |} []));
    [reflexivity | reflexivity | left; reflexivity].
Defined.

Lemma Walk_spec (refuse : string -> option error) : forall visits w,
  (forall p, p ∈ watching (Walk refuse visits w).1 ->
     p ∈ watching w \/ visited_dir visits p) /\
  ((Walk refuse visits w).2 = None <-> walk_clean refuse visits) /\
  ((Walk refuse visits w).2 = None ->
   forall p, p ∈ watching w \/ visited_dir visits p ->
     p ∈ watching (Walk refuse visits w).1).
Proof.
  induction visits as [|v visits IH]; intros w.
  - cbn [Walk fst snd]. split; [auto|]. split.
    + split; [|reflexivity]. intros _ v Hv. inversion Hv.
    + intros _ p [Hp|(info & Hin & _)]; [exact Hp | inversion Hin].
  - cbn [Walk]. destruct v as [path err|path info]; cbn [walkFn].
    { cbn [fst snd]. split; [auto|]. split; [|discriminate].
      split; [discriminate|]. intros Hclean.
      exfalso. apply (Hclean (VisitError path err)). left. }
    assert (forall p, visited_dir (VisitEntry path info :: visits) p <->
              (p = path /\ fi_IsDir info = true) \/ visited_dir visits p)
      as Hdir.
    { intros p. unfold visited_dir. split.
      - intros (i & Hin & Hd). apply elem_of_cons in Hin as [Heq|Hin].
        + injection Heq as -> ->. left. auto.
        + right. exists i. auto.
      - intros [[-> Hd]|(i & Hin & Hd)].
        + exists info. split; [left | exact Hd].
        + exists i. split; [right; exact Hin | exact Hd]. }
    assert (walk_clean refuse (VisitEntry path info :: visits) <->
              (fi_IsDir info = true -> refuse path = None) /\
              walk_clean refuse visits) as Hclean.
    { unfold walk_clean. split.
      - intros H. split; [exact (H (VisitEntry path info) ltac:(left))|].
        intros v Hv. apply H. right. exact Hv.
      - intros [Hhead Hrest] v Hv. apply elem_of_cons in Hv as [->|Hv];
          [exact Hhead | apply Hrest; exact Hv]. }
    destruct (fi_IsDir info) eqn:Hisdir.
    + unfold Add. destruct (refuse path) as [e|] eqn:Hrefuse; cbn [fst snd].
      * split; [auto|]. split; [|discriminate]. split; [discriminate|].
        rewrite Hclean. intros [H _]. specialize (H eq_refl). discriminate H.
      * destruct (IH {| watching := {[path]} ∪ watching w |})
          as (Hsub & Hiff & Hsup).
        split; [|split].
        -- intros p Hp. apply Hsub in Hp as [Hp|Hp].
           ++ cbn [watching] in Hp. apply elem_of_union in Hp as [Hp|Hp].
              ** apply elem_of_singleton in Hp as ->.
                 right. apply Hdir. left. auto.
              ** left. exact Hp.
           ++ right. apply Hdir. right. exact Hp.
        -- rewrite Hiff, Hclean. split; [auto | intros [_ H]; exact H].
        -- intros Hnone p Hp. apply Hsup; [exact Hnone|].
           cbn [watching]. rewrite elem_of_union, elem_of_singleton.
           destruct Hp as [Hp|Hp]; [auto|].
           apply Hdir in Hp as [[-> _]|Hp]; auto.
    + destruct (IH w) as (Hsub & Hiff & Hsup). split; [|split].
      * intros p Hp. apply Hsub in Hp as [Hp|Hp]; [auto|].
        right. apply Hdir. right. exact Hp.
      * rewrite Hiff, Hclean.
        split; [intros H; split; [discriminate | exact H] | intros [_ H]; exact H].
      * intros Hnone p Hp. apply Hsup; [exact Hnone|].
        destruct Hp as [Hp|Hp]; [auto|].
        apply Hdir in Hp as [[_ Hd]|Hp]; [discriminate Hd | auto].
Qed.

(** X11. The walk of [WatchDirectory] registers directories only, and
    only directories it visited.  It returns an error exactly when a
    visit carries an error of the walk or the notifier refuses a
    directory; without an error, every directory visited is watched (and
    the function then waits forever). *)
Theorem WatchDirectory_registers (refuse : string -> option error)
    (visits : list Visit) :
  let out := WatchDirectory_register refuse visits {| watching := ∅ |} in
  (forall p, p ∈ watching out.1 -> visited_dir visits p) /\
  (out.2 = None <-> walk_clean refuse visits) /\
  (out.2 = None -> forall p, visited_dir visits p -> p ∈ watching out.1).
Proof.
  cbv zeta. unfold WatchDirectory_register.
  destruct (Walk_spec refuse visits {| watching := ∅ |})
    as (Hsub & Hiff & Hsup).
  destruct (Walk refuse visits {| watching := ∅ |}) as [w' [e|]];
    cbn [fst snd] in *.
  - split; [|split].
    + intros p Hp. apply Hsub in Hp as [Hp|Hp]; [|exact Hp].
      cbn in Hp. apply not_elem_of_empty in Hp. contradiction.
    + rewrite <- Hiff. split; discriminate.
    + discriminate.
  - split; [|split].
    + intros p Hp. apply Hsub in Hp as [Hp|Hp]; [|exact Hp].
      cbn in Hp. apply not_elem_of_empty in Hp. contradiction.
    + rewrite <- Hiff. split; reflexivity.
    + intros _ p Hp. apply Hsup; [reflexivity | right; exact Hp].
Qed.

Lemma WatchDirectory_registers_witness :
  "logs" ∈ watching
    (WatchDirectory_register no_refusal sample_visits {| watching := ∅ |}).1.
Proof.
  apply (proj2 (proj2 (WatchDirectory_registers no_refusal sample_visits))).
  - reflexivity.
  - exists dir_info. split; [left | reflexivity].
Defined.

(** * More about the hub *)

(** One message of the dispatcher, with all it does and leaves alone. *)
Lemma dispatch_step (s : WebSocketServer) (order : list nat) (m : JSON) :
  registry_ok s -> range_order s order ->
  exists s', dispatch order m s = Some s' /\
    registry_ok s' /\
    (forall p, p ∉ clients s ->
       (p ∉ clients s') /\ heap s' !! p = heap s !! p) /\
    (forall p c, p ∈ clients s -> heap s !! p = Some c ->
       if decide (length (queue (send c)) < 256)%nat
       then p ∈ clients s' /\ heap s' !! p = Some (sent_client m c)
       else (p ∉ clients s') /\ heap s' !! p = Some (dropped_client c)).
Proof.
  intros Hok [Hnd Hmem].
  destruct (dispatch_range m order s Hnd) as (s' & Hrun & Hout & Hin).
  { intros p Hp. destruct (Hok p) as (c & Hc & Hopen & _);
      [apply Hmem; exact Hp | eauto]. }
  assert (forall p c, p ∈ clients s -> heap s !! p = Some c ->
            if decide (length (queue (send c)) < 256)%nat
            then p ∈ clients s' /\ heap s' !! p = Some (sent_client m c)
            else (p ∉ clients s') /\ heap s' !! p = Some (dropped_client c))
    as Hreg.
  { intros p c Hp Hc. destruct (Hok p Hp) as (c' & Hc' & _ & Hcap).
    rewrite Hc in Hc'. injection Hc' as <-.
    specialize (Hin p c ltac:(apply Hmem; exact Hp) Hc).
    rewrite Hcap in Hin.
    destruct (decide (length (queue (send c)) < 256)%nat).
    - destruct Hin as [Hh Hiff]. split; [apply Hiff; exact Hp | exact Hh].
    - destruct Hin as [Hh Hgone]. split; [exact Hgone | exact Hh]. }
  assert (forall p, p ∉ clients s ->
            (p ∉ clients s') /\ heap s' !! p = heap s !! p) as Hnot.
  { intros p Hp. destruct (Hout p) as [Hh Hiff].
    - intros Hord. apply Hp, Hmem, Hord.
    - split; [rewrite Hiff; exact Hp | exact Hh]. }
  exists s'. split; [exact Hrun|]. split; [|split; assumption].
  intros p Hp. destruct (decide (p ∈ clients s)) as [Hps|Hps].
  - destruct (Hok p Hps) as (c & Hc & Hopen & Hcap).
    specialize (Hreg p c Hps Hc).
    destruct (decide (length (queue (send c)) < 256)%nat).
    + exists (sent_client m c). destruct Hreg as [_ Hh].
      split; [exact Hh|]. split; [reflexivity | exact Hcap].
    + destruct Hreg as [Hgone _]. contradiction.
  - destruct (Hnot p Hps) as [Hgone _]. contradiction.
Qed.

Lemma range_order_same (s s1 : WebSocketServer) (order : list nat) :
  (forall p, p ∈ clients s1 <-> p ∈ clients s) ->
  range_order s order -> range_order s1 order.
Proof.
  intros Hsame [Hnd Hmem]. split; [exact Hnd|].
  intros p. rewrite Hmem, Hsame. reflexivity.
Qed.

Lemma dispatch_all_room : forall (ms : list JSON) (orders : list (list nat))
    (s : WebSocketServer),
  registry_ok s -> length orders = length ms ->
  Forall (range_order s) orders ->
  (forall p c, p ∈ clients s -> heap s !! p = Some c ->
     (length (queue (send c)) + length ms <= 256)%nat) ->
  exists s', dispatch_all orders ms s = Some s' /\
    registry_ok s' /\
    (forall p, p ∈ clients s' <-> p ∈ clients s) /\
    (forall p c, p ∈ clients s -> heap s !! p = Some c ->
       heap s' !! p
       = Some {| send := {| queue := queue (send c) ++ ms;
                            capacity := capacity (send c); closed := false |};
                 conn_open := conn_open c |}) /\
    (forall p, p ∉ clients s -> heap s' !! p = heap s !! p).
Proof.
  induction ms as [|m ms IH]; intros orders s Hok Hlen Hord Hroom.
  - exists s. split; [destruct orders; reflexivity|].
    split; [exact Hok|]. split; [reflexivity|]. split; [|reflexivity].
    intros p c Hp Hc. rewrite Hc, app_nil_r.
    destruct (Hok p Hp) as (c' & Hc' & Hopen & _).
    rewrite Hc in Hc'. injection Hc' as <-.
    destruct c as [[q cap cl] co]. cbn in *. rewrite Hopen. reflexivity.
  - destruct orders as [|order orders]; [discriminate Hlen|].
    apply Forall_cons in Hord as [Horder Hord].
    destruct (dispatch_step s order m Hok Horder)
      as (s1 & Hrun & Hok1 & Hnot & Hreg).
    assert (forall p c, p ∈ clients s -> heap s !! p = Some c ->
              p ∈ clients s1 /\ heap s1 !! p = Some (sent_client m c))
      as Hsent.
    { intros p c Hp Hc. specialize (Hreg p c Hp Hc).
      specialize (Hroom p c Hp Hc). cbn [length] in Hroom.
      destruct (decide (length (queue (send c)) < 256)%nat); [exact Hreg|lia]. }
    assert (forall p, p ∈ clients s1 <-> p ∈ clients s) as Hsame.
    { intros p. split.
      - intros Hp1. destruct (decide (p ∈ clients s)) as [Hp|Hp]; [exact Hp|].
        destruct (Hnot p Hp) as [Hgone _]. contradiction.
      - intros Hp. destruct (Hok p Hp) as (c & Hc & _).
        apply (Hsent p c Hp Hc). }
    destruct (IH orders s1 Hok1) as (s' & Hall & Hok' & Hsame' & Hq & Hun).
    + cbn [length] in Hlen. lia.
    + eapply Forall_impl; [exact Hord|]. intros o Ho.
      apply (range_order_same s s1); assumption.
    + intros p c1 Hp1 Hc1. apply Hsame in Hp1.
      destruct (Hok p Hp1) as (c & Hc & _).
      destruct (Hsent p c Hp1 Hc) as [_ Hh]. rewrite Hh in Hc1.
      injection Hc1 as <-. specialize (Hroom p c Hp1 Hc).
      cbn [length] in Hroom. cbn. rewrite length_app. cbn. lia.
    + exists s'. cbn [dispatch_all]. rewrite Hrun. cbn [mbind option_bind].
      split; [exact Hall|]. split; [exact Hok'|]. split; [|split].
      * intros p. rewrite Hsame', Hsame. reflexivity.
      * intros p c Hp Hc. destruct (Hsent p c Hp Hc) as [Hp1 Hh1].
        rewrite (Hq p (sent_client m c) Hp1 Hh1). cbn.
        rewrite <- app_assoc. reflexivity.
      * intros p Hp. destruct (Hnot p Hp) as [Hp1 Hh1].
        rewrite Hun by exact Hp1. exact Hh1.
Qed.

(** X12. A registry of open channels of capacity 256, every queue with
    room for all the messages [ms]: whichever order each [range] takes,
    the dispatcher handles the messages one after the other without a
    panic and without dropping anybody, every subscriber has the
    messages at the end of its queue in the order they were dispatched,
    and the clients outside the registry are left as they are.  (This is
    the dispatcher alone, no other goroutine touching the queues
    meanwhile.) *)
Theorem broadcasts_in_order (s : WebSocketServer)
    (orders : list (list nat)) (ms : list JSON) :
  registry_ok s -> length orders = length ms ->
  Forall (range_order s) orders ->
  (forall p c, p ∈ clients s -> heap s !! p = Some c ->
     (length (queue (send c)) + length ms <= 256)%nat) ->
  exists s', dispatch_all orders ms s = Some s' /\
    registry_ok s' /\
    (forall p, p ∈ clients s' <-> p ∈ clients s) /\
    (forall p c, p ∈ clients s -> heap s !! p = Some c ->
       heap s' !! p
       = Some {| send := {| queue := queue (send c) ++ ms;
                            capacity := capacity (send c); closed := false |};
                 conn_open := conn_open c |}) /\
    (forall p, p ∉ clients s -> heap s' !! p = heap s !! p).
Proof. intros. apply dispatch_all_room; assumption. Qed.

Lemma idle_hub_ok : registry_ok idle_hub.
Proof.
  intros p Hp. cbn [idle_hub clients heap] in *.
  apply elem_of_union in Hp as [Hp|Hp]; apply elem_of_singleton in Hp as ->;
    exists idle_client; repeat split.
Defined.

Lemma idle_hub_order12 : range_order idle_hub [1%nat; 2%nat].
Proof.
  split.
  - apply NoDup_cons. split; [|apply NoDup_singleton].
    intros H. apply list_elem_of_singleton in H. discriminate H.
  - intros p. cbn [idle_hub clients].
    rewrite !elem_of_cons, elem_of_nil, elem_of_union, !elem_of_singleton.
    tauto.
Defined.

Lemma idle_hub_order21 : range_order idle_hub [2%nat; 1%nat].
Proof.
  split.
  - apply NoDup_cons. split; [|apply NoDup_singleton].
    intros H. apply list_elem_of_singleton in H. discriminate H.
  - intros p. cbn [idle_hub clients].
    rewrite !elem_of_cons, elem_of_nil, elem_of_union, !elem_of_singleton.
    tauto.
Defined.

Lemma idle_hub_room (p : nat) (c : Client) :
  p ∈ clients idle_hub -> heap idle_hub !! p = Some c ->
  (length (queue (send c)) + length [JString "m1"; JString "m2"] <= 256)%nat.
Proof.
  intros Hp Hc. cbn [idle_hub clients heap] in *.
  apply elem_of_union in Hp as [Hp|Hp]; apply elem_of_singleton in Hp as ->.
  - rewrite lookup_insert_eq in Hc. injection Hc as <-. cbn. lia.
  - rewrite lookup_insert_ne, lookup_singleton_eq in Hc by discriminate.
    injection Hc as <-. cbn. lia.
Defined.

Lemma broadcasts_in_order_witness :
  exists s',
    dispatch_all [[1%nat; 2%nat]; [2%nat; 1%nat]]
      [JString "m1"; JString "m2"] idle_hub = Some s' /\
    registry_ok s' /\
    (forall p, p ∈ clients s' <-> p ∈ clients idle_hub) /\
    (forall p c, p ∈ clients idle_hub -> heap idle_hub !! p = Some c ->
       heap s' !! p
       = Some {| send := {| queue := queue (send c)
                                     ++ [JString "m1"; JString "m2"];
                            capacity := capacity (send c); closed := false |};
                 conn_open := conn_open c |}) /\
    (forall p, p ∉ clients idle_hub -> heap s' !! p = heap idle_hub !! p).
Proof.
  apply (broadcasts_in_order idle_hub [[1%nat; 2%nat]; [2%nat; 1%nat]]
           [JString "m1"; JString "m2"] idle_hub_ok eq_refl).
  - apply Forall_cons. split; [exact idle_hub_order12|].
    apply Forall_cons. split; [exact idle_hub_order21|]. apply Forall_nil.
    exact I.
  - exact idle_hub_room.
Defined.

(** X13. The cleanup of [handleClientRead] on a client that is registered
    with an open channel takes it out of the registry, closes its channel
    and its connection and leaves the others as they are.  On a client
    that the dispatcher has dropped for a full queue the channel is
    already closed: the cleanup closes it again, which panics. *)
Theorem cleanup_after_drop (s : WebSocketServer) (order : list nat)
    (m : JSON) (p : nat) (c : Client) :
  registry_ok s -> range_order s order ->
  p ∈ clients s -> heap s !! p = Some c ->
  (exists s1, handleClientRead_cleanup p s = Some s1 /\
     (p ∉ clients s1) /\ registry_ok s1 /\
     heap s1 !! p = Some {| send := close_chan (send c); conn_open := false |} /\
     forall q, q <> p ->
       heap s1 !! q = heap s !! q /\ (q ∈ clients s1 <-> q ∈ clients s)) /\
  ((256 <= length (queue (send c)))%nat ->
   exists s', dispatch order m s = Some s' /\
     handleClientRead_cleanup p s' = None).
Proof.
  intros Hok Horder Hp Hc. split.
  - destruct (Hok p Hp) as (c' & Hc' & Hopen & _).
    rewrite Hc in Hc'. injection Hc' as <-.
    unfold handleClientRead_cleanup. rewrite Hc, Hopen.
    eexists. split; [reflexivity|]. cbn [clients heap].
    split; [rewrite elem_of_difference, elem_of_singleton; tauto|].
    split; [|split].
    + intros q Hq. cbn [clients heap] in Hq |- *.
      apply elem_of_difference in Hq as [Hq Hne].
      rewrite elem_of_singleton in Hne.
      rewrite lookup_insert_ne by auto. apply Hok. exact Hq.
    + apply lookup_insert_eq.
    + intros q Hne. rewrite lookup_insert_ne by auto.
      split; [reflexivity|].
      rewrite elem_of_difference, elem_of_singleton. tauto.
  - intros Hfull.
    destruct (dispatch_step s order m Hok Horder)
      as (s' & Hrun & _ & _ & Hreg).
    exists s'. split; [exact Hrun|].
    specialize (Hreg p c Hp Hc).
    destruct (decide (length (queue (send c)) < 256)%nat); [lia|].
    destruct Hreg as [_ Hh]. unfold handleClientRead_cleanup.
    rewrite Hh. reflexivity.
Qed.

Lemma cleanup_after_drop_witness :
  exists s', dispatch [1%nat; 2%nat] (JString "m") sample_hub = Some s' /\
    handleClientRead_cleanup 2 s' = None.
Proof.
  apply (proj2 (cleanup_after_drop sample_hub [1%nat; 2%nat] (JString "m")
                  2%nat slow_client sample_hub_ok sample_hub_order
                  ltac:(cbn; apply elem_of_union; right;
                        apply elem_of_singleton; reflexivity)
                  eq_refl)).
  unfold slow_client. cbn [send queue]. rewrite length_replicate. lia.
Defined.

(** ** The write loop *)

Lemma handleClientWrite_written : forall pending c,
  written (handleClientWrite pending c)
  = written c ++ (TextFrame <$> take (budget c) pending)
      ++ (if decide (length pending < budget c)%nat then [CloseFrame] else []).
Proof.
  induction pending as [|m pending IH]; intros c.
  - cbn [handleClientWrite]. unfold WriteMessage.
    destruct (budget c) as [|b].
    + cbn. rewrite app_nil_r. reflexivity.
    + cbn. reflexivity.
  - cbn [handleClientWrite]. unfold WriteMessage.
    destruct (budget c) as [|b].
    + cbn. rewrite app_nil_r. reflexivity.
    + rewrite IH. cbn [written budget take fmap list_fmap length].
      rewrite <- app_assoc. cbn [app].
      destruct (decide (length pending < b)%nat),
               (decide (S (length pending) < S b)%nat);
        try reflexivity; exfalso; lia.
Qed.

(** X14. Once its channel is closed, [handleClientWrite] writes what is
    still queued as text frames in queue order, each once, stopping at
    the first write that fails; if no write fails it ends with one close
    frame.  What was written before is not touched. *)
Theorem handleClientWrite_fifo (pending : list JSON) (c : Conn) :
  written (handleClientWrite pending c)
  = written c ++ (TextFrame <$> take (budget c) pending)
      ++ (if decide (length pending < budget c)%nat then [CloseFrame] else [])
  /\
  ((length pending < budget c)%nat ->
   written (handleClientWrite pending c)
   = written c ++ (TextFrame <$> pending) ++ [CloseFrame]).
Proof.
  split; [apply handleClientWrite_written|].
  intros Hb. rewrite handleClientWrite_written, take_ge by lia.
  rewrite decide_True by exact Hb. reflexivity.
Qed.

Lemma handleClientWrite_fifo_witness :
  written (handleClientWrite [JString "a"; JString "b"]
             {| written := []; budget := 3 |})
  = [] ++ (TextFrame <$> [JString "a"; JString "b"]) ++ [CloseFrame].
Proof.
  apply (proj2 (handleClientWrite_fifo [JString "a"; JString "b"]
                  {| written := []; budget := 3 |})).
  cbn. lia.
Defined.

(** * Appended and truncated texts *)

Lemma lcs_le_left (oldLines newLines : list string) i j :
  (i <= length oldLines)%nat -> (j <= length newLines)%nat ->
  lcs oldLines newLines i j <= Z.of_nat i.
Proof.
  intros Hi Hj.
  destruct (lcs_attained oldLines newLines i j Hi Hj) as (c & [Ho _] & <-).
  apply sublist_length in Ho. rewrite length_take in Ho. lia.
Qed.

Lemma lcs_le_right (oldLines newLines : list string) i j :
  (i <= length oldLines)%nat -> (j <= length newLines)%nat ->
  lcs oldLines newLines i j <= Z.of_nat j.
Proof.
  intros Hi Hj.
  destruct (lcs_attained oldLines newLines i j Hi Hj) as (c & [_ Hn] & <-).
  apply sublist_length in Hn. rewrite length_take in Hn. lia.
Qed.

(** Texts with a common prefix [A] have all of [A] in common. *)
Lemma lcs_common_prefix (A X Y : list string) i j :
  (length A <= i <= length (A ++ X))%nat ->
  (length A <= j <= length (A ++ Y))%nat ->
  Z.of_nat (length A) <= lcs (A ++ X) (A ++ Y) i j.
Proof.
  intros Hi Hj. apply lcs_upper; [lia..|]. split.
  - rewrite take_app. apply sublist_inserts_r.
    rewrite take_ge by lia. reflexivity.
  - rewrite take_app. apply sublist_inserts_r.
    rewrite take_ge by lia. reflexivity.
Qed.

Lemma line_at_app_l (l k : list string) i :
  (i < length l)%nat -> line_at (l ++ k) i = line_at l i.
Proof. intros Hi. unfold line_at. rewrite lookup_app_l by exact Hi. reflexivity. Qed.

Lemma line_at_app_r (l k : list string) i :
  line_at (l ++ k) (length l + i) = line_at k i.
Proof.
  unfold line_at. rewrite lookup_app_r by lia.
  replace (length l + i - length l)%nat with i by lia. reflexivity.
Qed.

Lemma line_at_last (l : list string) :
  (0 < length l)%nat -> last l = Some (line_at l (length l - 1)).
Proof.
  intros Hl. rewrite last_lookup.
  replace (Nat.pred (length l)) with (length l - 1)%nat by lia.
  apply line_at_lookup. lia.
Qed.

Lemma line_at_elem (l : list string) i :
  (i < length l)%nat -> line_at l i ∈ l.
Proof.
  intros Hi. apply list_elem_of_lookup. exists i. apply line_at_lookup. exact Hi.
Qed.

(** Over a common prefix the walk on the diagonal records nothing. *)
Lemma backtrack_common_prefix (A X Y : list string) (dp : Table) :
  forall i fuel acc,
  (i <= length A)%nat -> (i <= fuel)%nat ->
  backtrack fuel (A ++ X) (A ++ Y) dp i i acc = Some acc.
Proof.
  induction i as [|i IH]; intros fuel acc Hi Hf.
  - destruct fuel; reflexivity.
  - destruct fuel as [|fuel]; [lia|]. cbn [backtrack].
    destruct (decide (0 < S i ∨ 0 < S i)%nat) as [_|H]; [|exfalso; lia].
    replace (S i - 1)%nat with i by lia.
    destruct (decide _) as [_|H].
    + apply IH; lia.
    + exfalso. apply H. split; [lia|]. split; [lia|].
      rewrite !line_at_app_l by lia. reflexivity.
Qed.

(** Over a common suffix the walk on the diagonal records nothing. *)
Lemma backtrack_common_suffix (P Q R : list string) (dp : Table) :
  forall k fuel acc,
  (k <= length R)%nat ->
  backtrack (k + fuel) (P ++ R) (Q ++ R) dp
    (length P + k) (length Q + k) acc
  = backtrack fuel (P ++ R) (Q ++ R) dp (length P) (length Q) acc.
Proof.
  induction k as [|k IH]; intros fuel acc Hk.
  - rewrite !Nat.add_0_r. reflexivity.
  - cbn [Nat.add backtrack].
    destruct (decide _) as [_|H]; [|exfalso; lia].
    replace (length P + S k - 1)%nat with (length P + k)%nat by lia.
    replace (length Q + S k - 1)%nat with (length Q + k)%nat by lia.
    destruct (decide _) as [_|H].
    + apply IH. lia.
    + exfalso. apply H. split; [lia|]. split; [lia|].
      rewrite !line_at_app_r. reflexivity.
Qed.

Section Appended.
Variables A B R : list string.
(** The last line before the insertion is none of the inserted lines. *)
Hypothesis last_fresh : forall a, last A = Some a -> a ∉ B.

Lemma last_differs k :
  (0 < length A)%nat -> (k < length B)%nat ->
  line_at A (length A - 1) <> line_at B k.
Proof.
  intros HA Hk Heq. apply (last_fresh (line_at A (length A - 1))).
  - apply line_at_last. exact HA.
  - rewrite Heq. apply line_at_elem. exact Hk.
Qed.

Lemma backtrack_appended : forall k fuel acc,
  (k <= length B)%nat -> (length A + k <= fuel)%nat ->
  backtrack fuel (A ++ R) (A ++ B ++ R)
    (fill_table (A ++ R) (A ++ B ++ R)) (length A) (length A + k) acc
  = Some (adds (length A + 1) (take k B) ++ acc).
Proof.
  induction k as [|k IH]; intros fuel acc Hk Hf.
  - rewrite Nat.add_0_r, backtrack_common_prefix by lia. reflexivity.
  - destruct fuel as [|fuel]; [lia|]. cbn [backtrack].
    destruct (decide _) as [_|H]; [|exfalso; lia].
    replace (length A + S k - 1)%nat with (length A + k)%nat by lia.
    assert (line_at (A ++ B ++ R) (length A + k) = line_at B k) as Hnew.
    { rewrite line_at_app_r, line_at_app_l by lia. reflexivity. }
    rewrite Hnew.
    destruct (decide _) as [(HA & _ & Heq)|_].
    { exfalso. rewrite line_at_app_l in Heq by lia.
      apply (last_differs k); [lia | lia | exact Heq]. }
    destruct (decide _) as [_|H].
    + rewrite IH by lia. rewrite take_S_line by lia.
      rewrite adds_snoc, <- app_assoc, length_take_le by lia.
      cbn [app]. f_equal. f_equal. f_equal. f_equal. lia.
    + exfalso. apply H. split; [lia|].
      destruct (decide (length A = 0%nat)) as [HA|HA]; [left; exact HA|].
      right. rewrite !fill_table_lcs by (rewrite !length_app; lia).
      pose proof (lcs_common_prefix A R (B ++ R) (length A) (length A + k))
        as Hge.
      pose proof (lcs_le_left (A ++ R) (A ++ B ++ R) (length A - 1)
                    (length A + S k)) as Hle.
      rewrite !length_app in Hge, Hle.
      specialize (Hge ltac:(lia) ltac:(lia)).
      specialize (Hle ltac:(lia) ltac:(lia)). lia.
Qed.

Lemma backtrack_truncated : forall k fuel acc,
  (k <= length B)%nat -> (length A + k <= fuel)%nat ->
  backtrack fuel (A ++ B ++ R) (A ++ R)
    (fill_table (A ++ B ++ R) (A ++ R)) (length A + k) (length A) acc
  = Some (removes (length A + 1) (take k B) ++ acc).
Proof.
  induction k as [|k IH]; intros fuel acc Hk Hf.
  - rewrite Nat.add_0_r, backtrack_common_prefix by lia. reflexivity.
  - destruct fuel as [|fuel]; [lia|]. cbn [backtrack].
    destruct (decide _) as [_|H]; [|exfalso; lia].
    replace (length A + S k - 1)%nat with (length A + k)%nat by lia.
    assert (line_at (A ++ B ++ R) (length A + k) = line_at B k) as Hold.
    { rewrite line_at_app_r, line_at_app_l by lia. reflexivity. }
    rewrite Hold.
    destruct (decide _) as [(_ & HA & Heq)|_].
    { exfalso. rewrite line_at_app_l in Heq by lia.
      apply (last_differs k); [lia | lia | symmetry; exact Heq]. }
    destruct (decide _) as [(HA & Hc)|_].
    { exfalso. destruct Hc as [Hc|Hc]; [lia|].
      rewrite !fill_table_lcs in Hc by (rewrite !length_app; lia).
      pose proof (lcs_common_prefix A (B ++ R) R (length A + k) (length A))
        as Hge.
      pose proof (lcs_le_right (A ++ B ++ R) (A ++ R) (length A + S k)
                    (length A - 1)) as Hle.
      rewrite !length_app in Hge, Hle.
      specialize (Hge ltac:(lia) ltac:(lia)).
      specialize (Hle ltac:(lia) ltac:(lia)). lia. }
    destruct (decide _) as [_|H].
    + rewrite IH by lia. rewrite take_S_line by lia.
      rewrite removes_snoc, <- app_assoc, length_take_le by lia.
      cbn [app]. f_equal. f_equal. f_equal. f_equal. lia.
    + exfalso. apply H. split; [lia|].
      destruct (decide (length A = 0%nat)) as [HA|HA]; [left; exact HA|].
      right. rewrite !fill_table_lcs by (rewrite !length_app; lia).
      pose proof (lcs_common_prefix A (B ++ R) R (length A + k) (length A))
        as Hge.
      pose proof (lcs_le_right (A ++ B ++ R) (A ++ R) (length A + S k)
                    (length A - 1)) as Hle.
      rewrite !length_app in Hge, Hle.
      specialize (Hge ltac:(lia) ltac:(lia)).
      specialize (Hle ltac:(lia) ltac:(lia)). lia.
Qed.

Lemma diff_lines_appended :
  diff_lines (A ++ R) (A ++ B ++ R) = adds (length A + 1) B.
Proof.
  unfold diff_lines, compare_loop.
  replace (length (A ++ R) + length (A ++ B ++ R))%nat
    with (length R + (length A + (length A + length B + length R)))%nat
    by (rewrite !length_app; lia).
  replace (length (A ++ R)) with (length A + length R)%nat
    by (rewrite length_app; lia).
  replace (length (A ++ B ++ R)) with (length (A ++ B) + length R)%nat
    by (rewrite !length_app; lia).
  rewrite (app_assoc A B R).
  rewrite (backtrack_common_suffix A (A ++ B) R) by lia.
  rewrite <- (app_assoc A B R). rewrite length_app.
  rewrite backtrack_appended by lia.
  rewrite take_ge, app_nil_r by lia. reflexivity.
Qed.

Lemma diff_lines_truncated :
  diff_lines (A ++ B ++ R) (A ++ R) = removes (length A + 1) B.
Proof.
  unfold diff_lines, compare_loop.
  replace (length (A ++ B ++ R) + length (A ++ R))%nat
    with (length R + (length A + (length A + length B + length R)))%nat
    by (rewrite !length_app; lia).
  replace (length (A ++ R)) with (length A + length R)%nat
    by (rewrite length_app; lia).
  replace (length (A ++ B ++ R)) with (length (A ++ B) + length R)%nat
    by (rewrite !length_app; lia).
  rewrite (app_assoc A B R).
  rewrite (backtrack_common_suffix (A ++ B) A R) by lia.
  rewrite <- (app_assoc A B R). rewrite length_app.
  rewrite backtrack_truncated by lia.
  rewrite take_ge, app_nil_r by lia. reflexivity.
Qed.
End Appended.

(** X15. Lines [B] inserted between a head [A] and a tail [R] that stay
    as they are (a log that grows: [R] is the empty last line) are
    reported as the additions of exactly the lines of [B], numbered
    from [length A + 1], provided the last line of [A] is none of the
    lines of [B]; under the same proviso, taking [B] out again is
    reported as the removals of exactly those lines. *)
Theorem compareLines_appended (A B R : list string) :
  (forall a, last A = Some a -> a ∉ B) ->
  diff_lines (A ++ R) (A ++ B ++ R) = adds (length A + 1) B /\
  diff_lines (A ++ B ++ R) (A ++ R) = removes (length A + 1) B.
Proof.
  intros Hfresh. split.
  - apply diff_lines_appended. exact Hfresh.
  - apply diff_lines_truncated. exact Hfresh.
Qed.

Lemma compareLines_appended_witness :
  diff_lines (["x"] ++ [""]) (["x"] ++ ["y"; "z"] ++ [""])
    = adds (length ["x"] + 1) ["y"; "z"] /\
  diff_lines (["x"] ++ ["y"; "z"] ++ [""]) (["x"] ++ [""])
    = removes (length ["x"] + 1) ["y"; "z"].
Proof.
  apply (compareLines_appended ["x"] ["y"; "z"] [""]).
  intros a Ha Hin. injection Ha as <-.
  apply elem_of_cons in Hin as [Hin|Hin]; [discriminate Hin|].
  apply list_elem_of_singleton in Hin. discriminate Hin.
Defined.

(** * More about inbound messages *)

Section Frames.
Variable coerce : string -> string.
Variable json_Unmarshal : string -> result SocketMessage.
Variable os_ReadFile : string -> result string.
Variable watchPath : string.

Local Abbreviation handler :=
  (onSocketMessage json_Unmarshal os_ReadFile watchPath).

(** An iteration whose handler replied: the send decides. *)
Lemma iteration_reply (message : string) (response : JSON) (ch : Chan) :
  handler message = Returns (Ok response) ->
  handleClientRead_iteration coerce handler (Ok message) ch
  = if closed ch then ProcessGone
    else if decide (length (queue ch) < capacity ch)%nat
         then LoopGoesOn {| queue := queue ch ++ [render coerce response];
                            capacity := capacity ch; closed := false |}
         else LoopWaits.
Proof.
  intros Hret. unfold handleClientRead_iteration, try_send. rewrite Hret.
  destruct (closed ch); [reflexivity|].
  destruct (decide _); reflexivity.
Qed.

Lemma iteration_down (message : string) (ch : Chan) :
  handler message = Exits \/ handler message = Panics ->
  handleClientRead_iteration coerce handler (Ok message) ch = ProcessGone.
Proof.
  intros [H|H]; unfold handleClientRead_iteration; rewrite H; reflexivity.
Qed.

Lemma iteration_error (message : string) (err : error) (ch : Chan) :
  handler message = Returns (Err err) ->
  handleClientRead_iteration coerce handler (Ok message) ch = LoopGoesOn ch.
Proof.
  intros H. unfold handleClientRead_iteration. rewrite H. reflexivity.
Qed.

Lemma reply_cases (message : string) (response : JSON) (ch : Chan) :
  handler message = Returns (Ok response) ->
  handleClientRead_iteration coerce handler (Ok message) ch <> LoopBreaks /\
  (handleClientRead_iteration coerce handler (Ok message) ch = ProcessGone
   <-> closed ch = true).
Proof.
  intros Hret. rewrite (iteration_reply _ _ _ Hret).
  destruct (closed ch).
  - split; [discriminate | split; reflexivity].
  - destruct (decide _); (split; [discriminate | split; discriminate]).
Qed.
End Frames.

(** X16. An iteration of the read loop that has read a frame never ends
    the loop: it goes on, waits for room in [send], or the whole process
    is gone.  The process is gone exactly when [json.Unmarshal] rejects
    the frame for the envelope; or the frame is a [get_file_content]
    request whose [data] is not a string, or whose path cannot be read;
    or the handler has a reply ([get_info], [ping], a readable
    [get_file_content]) and [send] has been closed, as it is once the
    dispatcher has dropped the client. *)
Theorem frame_process_down (coerce : string -> string)
    (json_Unmarshal : string -> result SocketMessage)
    (os_ReadFile : string -> result string) (watchPath : string)
    (message : string) (ch : Chan) :
  let iteration :=
    handleClientRead_iteration coerce
      (onSocketMessage json_Unmarshal os_ReadFile watchPath)
      (Ok message) ch in
  iteration <> LoopBreaks /\
  (iteration = ProcessGone <->
   match json_Unmarshal message with
   | Err _ => True
   | Ok msg =>
       (msg_Type msg = "get_file_content" /\
        match msg_Data msg with
        | JString path =>
            (exists err, os_ReadFile path = Err err) \/ closed ch = true
        | _ => True
        end) \/
       ((msg_Type msg = "get_info" \/ msg_Type msg = "ping") /\
        closed ch = true)
   end).
Proof.
  cbv zeta.
  destruct (json_Unmarshal message) as [msg|e] eqn:Hdec.
  2:{ rewrite iteration_down
        by (left; unfold onSocketMessage; rewrite Hdec; reflexivity).
      split; [discriminate | split; auto]. }
  destruct (decide (msg_Type msg = "get_info")) as [H1|H1].
  { destruct (reply_cases coerce json_Unmarshal os_ReadFile watchPath message
                (JObject [ ("data", JObject [ ("path", JString watchPath);
                                              ("type", JString "file") ]);
                           ("type", JString "info") ]) ch) as [Hnb Hiff].
    { unfold onSocketMessage. rewrite Hdec.
      rewrite bool_decide_eq_true_2 by exact H1. reflexivity. }
    split; [exact Hnb|]. rewrite Hiff. split.
    - intros Hc. right. auto.
    - intros [[H _]|[_ Hc]]; [|exact Hc]. rewrite H1 in H. discriminate H. }
  destruct (decide (msg_Type msg = "get_file_content")) as [H2|H2].
  { destruct (msg_Data msg) as [|path|z|items|members] eqn:Hdata.
    2:{ destruct (os_ReadFile path) as [content|e] eqn:Hread.
        - destruct (reply_cases coerce json_Unmarshal os_ReadFile watchPath
                      message
                      (JObject [ ("data", JString content);
                                 ("type", JString "file_content") ]) ch)
            as [Hnb Hiff].
          { unfold onSocketMessage. rewrite Hdec.
            rewrite (bool_decide_eq_false_2 _ H1).
            rewrite bool_decide_eq_true_2 by exact H2.
            rewrite Hdata, Hread. reflexivity. }
          split; [exact Hnb|]. rewrite Hiff. split.
          + intros Hc. left. split; [exact H2 | right; exact Hc].
          + intros [[_ [[err Herr]|Hc]]|[_ Hc]];
              [discriminate Herr | exact Hc | exact Hc].
        - rewrite iteration_down.
          2:{ left. unfold onSocketMessage. rewrite Hdec.
              rewrite (bool_decide_eq_false_2 _ H1).
              rewrite bool_decide_eq_true_2 by exact H2.
              rewrite Hdata, Hread. reflexivity. }
          split; [discriminate|]. split; [|reflexivity].
          intros _. left. split; [exact H2|]. left. exists e. reflexivity. }
    all: rewrite iteration_down
      by (right; unfold onSocketMessage; rewrite Hdec;
          rewrite (bool_decide_eq_false_2 _ H1);
          rewrite bool_decide_eq_true_2 by exact H2;
          rewrite Hdata; reflexivity).
    all: split; [discriminate|]; split; [|reflexivity].
    all: intros _; left; split; [exact H2 | exact I]. }
  destruct (decide (msg_Type msg = "ping")) as [H3|H3].
  { destruct (reply_cases coerce json_Unmarshal os_ReadFile watchPath message
                (JObject [ ("type", JString "pong") ]) ch) as [Hnb Hiff].
    { unfold onSocketMessage. rewrite Hdec.
      rewrite (bool_decide_eq_false_2 _ H1), (bool_decide_eq_false_2 _ H2).
      rewrite bool_decide_eq_true_2 by exact H3. reflexivity. }
    split; [exact Hnb|]. rewrite Hiff. split.
    - intros Hc. right. auto.
    - intros [[H _]|[_ Hc]]; [contradiction | exact Hc]. }
  rewrite (iteration_error coerce json_Unmarshal os_ReadFile watchPath message
             ("未知的消息类型: " +:+ msg_Type msg)).
  2:{ unfold onSocketMessage. rewrite Hdec.
      rewrite (bool_decide_eq_false_2 _ H1), (bool_decide_eq_false_2 _ H2),
        (bool_decide_eq_false_2 _ H3). reflexivity. }
  split; [discriminate|]. split; [discriminate|].
  intros [[H _]|[[H|H] _]]; contradiction.
Qed.

(** X17. A [get_file_content] request is served for whatever readable
    path it names: the path is not compared with the watched path.  With
    [send] open and not full, what is queued is the document of the
    file's content and the type [file_content] as [json.Marshal] renders
    it, that is with the bytes of the content that are not valid UTF-8
    replaced. *)
Theorem get_file_content_any_path (coerce : string -> string)
    (json_Unmarshal : string -> result SocketMessage)
    (os_ReadFile : string -> result string) (watchPath : string)
    (message path content : string) (ch : Chan) :
  json_Unmarshal message
    = Ok {| msg_Type := "get_file_content"; msg_Data := JString path |} ->
  os_ReadFile path = Ok content ->
  closed ch = false -> (length (queue ch) < capacity ch)%nat ->
  handleClientRead_iteration coerce
    (onSocketMessage json_Unmarshal os_ReadFile watchPath) (Ok message) ch
  = LoopGoesOn
      {| queue := queue ch
                  ++ [JObject [ (coerce "data", JString (coerce content));
                                (coerce "type",
                                 JString (coerce "file_content")) ]];
         capacity := capacity ch; closed := false |}.
Proof.
  intros Hdec Hread Hopen Hroom.
  rewrite (iteration_reply coerce json_Unmarshal os_ReadFile watchPath message
             (JObject [ ("data", JString content);
                        ("type", JString "file_content") ])).
  - rewrite Hopen, decide_True by exact Hroom. reflexivity.
  - unfold onSocketMessage. rewrite Hdec. cbn. rewrite Hread. reflexivity.
Qed.

Lemma get_file_content_any_path_witness :
  handleClientRead_iteration (fun s => s)
    (onSocketMessage
       (fun _ => Ok {| msg_Type := "get_file_content";
                       msg_Data := JString "app.log" |})
       sample_ReadFile "elsewhere.log") (Ok "frame") (make_chan 256)
  = LoopGoesOn
      {| queue := queue (make_chan 256)
                  ++ [JObject [ ("data", JString "hello");
                                ("type", JString "file_content") ]];
         capacity := capacity (make_chan 256); closed := false |}.
Proof.
  apply (get_file_content_any_path (fun s => s)
           (fun _ => Ok {| msg_Type := "get_file_content";
                           msg_Data := JString "app.log" |})
           sample_ReadFile "elsewhere.log" "frame" "app.log" "hello"
           (make_chan 256)); [reflexivity | reflexivity | reflexivity |].
  cbn. lia.
Defined.

(** * From a write to the subscribers *)

(** X18. With [onFileChange] as the callback, an accepted write to the
    watched file hands the hub exactly one message, the [log] message of
    the [modified] record with its diff; dispatched over a registry made
    by [HandleWebSocket], that message is the last element of the queue
    of every subscriber that had room. *)
Theorem write_reaches_subscribers (marshal_FileInfo : os_FileInfo -> JSON)
    (fs : FS) (fw : FileWatcher) (event : Event) (hub : WebSocketServer)
    (order : list nat) (newContent : string) (info : option os_FileInfo) :
  Has event Write = true ->
  FileWatcher_readFileContent fs (Name event) = (newContent, info, None) ->
  registry_ok hub -> range_order hub order ->
  let message :=
    log_message marshal_FileInfo
      {| Path := Name event; Op := "modified"; Content := newContent;
         PrevContent := cache_get fw (Name event);
         LineChanges :=
           Some (compareLines (cache_get fw (Name event)) newContent);
         FileInfo := info |} in
  (WatchFile_event fs fw event (Some (onFileChange marshal_FileInfo)) []).2
    = [message] /\
  exists hub', dispatch order message hub = Some hub' /\
    forall p c, p ∈ clients hub -> heap hub !! p = Some c ->
      (length (queue (send c)) < 256)%nat ->
      p ∈ clients hub' /\
      exists c', heap hub' !! p = Some c' /\
        queue (send c') = queue (send c) ++ [message].
Proof.
  intros Hw Hread Hok Horder. cbv zeta. split.
  - unfold WatchFile_event, handleFileChange. rewrite Hw, Hread. reflexivity.
  - destruct (dispatch_step hub order
                (log_message marshal_FileInfo
                   {| Path := Name event; Op := "modified";
                      Content := newContent;
                      PrevContent := cache_get fw (Name event);
                      LineChanges :=
                        Some (compareLines (cache_get fw (Name event))
                                newContent);
                      FileInfo := info |}) Hok Horder)
      as (hub' & Hrun & _ & _ & Hreg).
    exists hub'. split; [exact Hrun|].
    intros p c Hp Hc Hroom. specialize (Hreg p c Hp Hc).
    destruct (decide (length (queue (send c)) < 256)%nat); [|lia].
    destruct Hreg as [Hp' Hh]. split; [exact Hp'|].
    eexists. split; [exact Hh | reflexivity].
Qed.

Lemma write_reaches_subscribers_witness :
  let message :=
    log_message marshal_fileStat
      {| Path := Name write_event; Op := "modified"; Content := "hello";
         PrevContent := cache_get {| fileCache := ∅ |} (Name write_event);
         LineChanges :=
           Some (compareLines
                   (cache_get {| fileCache := ∅ |} (Name write_event))
                   "hello");
         FileInfo := Some sample_info |} in
  (WatchFile_event sample_fs {| fileCache := ∅ |} write_event
     (Some (onFileChange marshal_fileStat)) []).2 = [message] /\
  exists hub', dispatch [1%nat; 2%nat] message sample_hub = Some hub' /\
    forall p c, p ∈ clients sample_hub -> heap sample_hub !! p = Some c ->
      (length (queue (send c)) < 256)%nat ->
      p ∈ clients hub' /\
      exists c', heap hub' !! p = Some c' /\
        queue (send c') = queue (send c) ++ [message].
Proof.
  exact (write_reaches_subscribers marshal_fileStat sample_fs
           {| fileCache := ∅ |} write_event sample_hub [1%nat; 2%nat]
           "hello" (Some sample_info) eq_refl eq_refl
           sample_hub_ok sample_hub_order).
Defined.

(** X19. A connection registered by [HandleWebSocket] joins a registry
    that stays well formed, with an empty queue of capacity 256; the next
    message dispatched is the first element of its queue, and it is still
    registered afterwards. *)
Theorem new_subscriber_receives (s : WebSocketServer) (p : nat)
    (order : list nat) (m : JSON) :
  registry_ok s -> range_order (HandleWebSocket p s) order ->
  registry_ok (HandleWebSocket p s) /\
  p ∈ clients (HandleWebSocket p s) /\
  heap (HandleWebSocket p s) !! p
    = Some {| send := make_chan 256; conn_open := true |} /\
  exists s', dispatch order m (HandleWebSocket p s) = Some s' /\
    p ∈ clients s' /\
    heap s' !! p
    = Some {| send := {| queue := [m]; capacity := 256; closed := false |};
              conn_open := true |}.
Proof.
  intros Hok Horder.
  pose proof (HandleWebSocket_ok p s Hok) as Hok'.
  assert (p ∈ clients (HandleWebSocket p s)) as Hp.
  { cbn. apply elem_of_union. left. apply elem_of_singleton. reflexivity. }
  assert (heap (HandleWebSocket p s) !! p
          = Some {| send := make_chan 256; conn_open := true |}) as Hh.
  { cbn. apply lookup_insert_eq. }
  split; [exact Hok'|]. split; [exact Hp|]. split; [exact Hh|].
  destruct (dispatch_step (HandleWebSocket p s) order m Hok' Horder)
    as (s' & Hrun & _ & _ & Hreg).
  exists s'. split; [exact Hrun|].
  specialize (Hreg p _ Hp Hh). cbn in Hreg. exact Hreg.
Qed.

Lemma new_subscriber_receives_witness :
  exists s', dispatch [3%nat; 1%nat; 2%nat] (JString "m")
               (HandleWebSocket 3 sample_hub) = Some s' /\
    3%nat ∈ clients s' /\
    heap s' !! 3%nat
    = Some {| send := {| queue := [JString "m"]; capacity := 256;
                         closed := false |};
              conn_open := true |}.
Proof.
  apply (proj2 (proj2 (proj2
           (new_subscriber_receives sample_hub 3 [3%nat; 1%nat; 2%nat]
              (JString "m") sample_hub_ok ltac:(
                split;
                [ repeat (apply NoDup_cons; split;
                    [rewrite ?elem_of_cons, ?elem_of_nil; intros H;
                     repeat destruct H as [H|H]; try discriminate H; exact H|]);
                  apply NoDup_nil; exact I
                | intros q; cbn [HandleWebSocket sample_hub clients];
                  rewrite !elem_of_cons, elem_of_nil, !elem_of_union,
                    !elem_of_singleton; tauto ]))))).
Defined.
